(** * valveFM: playback backends with fallback, and the tray control protocol

    A shallow embedding of
      - internal/player/goaudio.go (GoPlayer, the in-process decode backend),
      - internal/player/mpv.go (Player, the external-process backend),
      - package player's CompositeBackend (ordered fallback between the two),
      - package ui's handleIPC, ipcStatus and sendIPCReply (the dispatcher
        of the control commands).

    Go objects are records, methods are state-passing functions.  What a
    method does to the outside (HTTP bodies, the speaker, child processes)
    is appended to an effect log kept in [World]; what the outside answers
    (an HTTP status, a failed [cmd.Start]) is an explicit argument.
    A Go [error] is an [option string]: [None] is [nil]. *)

From Stdlib Require Import String Ascii List ZArith Bool Lia Arith PeanoNat.
From Stdlib Require Import DecimalString.
Import ListNotations.
Open Scope string_scope.

Set Implicit Arguments.

(** ** Go values shared by every package *)

Definition error := option string.

Definition handle := nat.

(** [fmt]'s [%d] on a non-negative integer. *)
Definition fmt_d (n : nat) : string := NilEmpty.string_of_uint (Nat.to_uint n).

(** A Go [int] is 64 bits wide.  The models compute on [Z]; a sum that the
    code forms is the one of the model when it fits. *)
Definition fitsInt (z : Z) : Prop := (- 2 ^ 63 <= z < 2 ^ 63)%Z.

(** [fmt]'s [%d] on an integer. *)
Definition fmt_dZ (z : Z) : string :=
  if Z.ltb z 0 then "-" ++ fmt_d (Z.to_nat (- z)) else fmt_d (Z.to_nat z).

(** ** The outside world *)

Inductive Effect : Type :=
| SpeakerInit
| HttpGet (url : string) (body : handle)
| BodyClose (body : handle)
| StreamerClose (streamer : handle)
| CtrlPause (ctrl : handle)
| SpeakerPlay (ctrl : handle)
| ProcStart (path : string) (args : list string) (pid : handle)
| ProcKill (pid : handle).

(** [fresh] numbers the objects Go allocates (response bodies, decoders,
    control nodes, commands); [effects] is the log, oldest first. *)
Record World : Type := mkWorld {
  fresh : handle;
  effects : list Effect
}.

Definition emit (e : Effect) (w : World) : World :=
  mkWorld (fresh w) (effects w ++ [e]).

Definition alloc (w : World) : handle * World :=
  (fresh w, mkWorld (S (fresh w)) (effects w)).

Definition world0 : World := mkWorld 0 [].

(** [w'] is [w] with more effects after it. *)
Definition extends (w w' : World) : Prop :=
  exists l, effects w' = (effects w ++ l)%list.

(** Effects that give a playback resource back. *)
Definition isRelease (e : Effect) : bool :=
  match e with
  | BodyClose _ | StreamerClose _ | CtrlPause _ | ProcKill _ => true
  | _ => false
  end.

(** [w'] is [w] followed by releases only. *)
Definition releases (w w' : World) : Prop :=
  exists l, effects w' = (effects w ++ l)%list /\ forallb isRelease l = true.

(** ** internal/player/goaudio.go *)

Module GoAudio.

Record GoPlayer : Type := mkGoPlayer {
  streamer : option handle;
  ctrl : option handle;
  resp : option handle;
  lastURL : string;
  playing : bool;
  initialized : bool
}.

(** What the libraries answer during one [Play]. *)
Record GoEnv : Type := mkGoEnv {
  speakerInitErr : error;        (* speaker.Init *)
  newRequestErr : error;         (* http.NewRequest *)
  httpDo : string + nat;         (* http.DefaultClient.Do: error, or the status code *)
  mp3DecodeErr : error           (* mp3.Decode *)
}.

Definition NewGoPlayer : GoPlayer := mkGoPlayer None None None "" false false.

Definition probeGoAudio : option GoPlayer := Some NewGoPlayer.

Definition initSpeaker (g : GoPlayer) (w : World) (env : GoEnv)
  : GoPlayer * World * error :=
  if initialized g then (g, w, None)
  else
    let w1 := emit SpeakerInit w in
    match speakerInitErr env with
    | Some e => (g, w1, Some ("speaker init: " ++ e))
    | None =>
        (mkGoPlayer (streamer g) (ctrl g) (resp g) (lastURL g) (playing g) true,
         w1, None)
    end.

Definition cleanupLocked (g : GoPlayer) (w : World) : GoPlayer * World :=
  let w1 := match streamer g with
            | Some s => emit (StreamerClose s) w
            | None => w
            end in
  let w2 := match resp g with
            | Some r => emit (BodyClose r) w1
            | None => w1
            end in
  (mkGoPlayer None (ctrl g) None (lastURL g) false (initialized g), w2).

Definition stopLocked (g : GoPlayer) (w : World) : GoPlayer * World :=
  match ctrl g with
  | Some c =>
      cleanupLocked
        (mkGoPlayer (streamer g) None (resp g) (lastURL g) (playing g) (initialized g))
        (emit (CtrlPause c) w)
  | None => cleanupLocked g w
  end.

Definition http_StatusOK : nat := 200.

Definition Play (g : GoPlayer) (w : World) (env : GoEnv) (url : string)
  : GoPlayer * World * error :=
  if String.eqb url "" then (g, w, Some "stream url is required")
  else
    let '(g1, w1) := stopLocked g w in
    let g2 := mkGoPlayer (streamer g1) (ctrl g1) (resp g1) url (playing g1)
                         (initialized g1) in
    match initSpeaker g2 w1 env with
    | (g3, w3, Some e) => (g3, w3, Some e)
    | (g3, w3, None) =>
        match newRequestErr env with
        | Some e => (g3, w3, Some ("request: " ++ e))
        | None =>
            match httpDo env with
            | inl e => (g3, w3, Some ("stream open: " ++ e))
            | inr status =>
                let '(body, w4) := alloc w3 in
                let w5 := emit (HttpGet url body) w4 in
                if negb (Nat.eqb status http_StatusOK) then
                  (g3, emit (BodyClose body) w5,
                   Some ("stream HTTP " ++ fmt_d status))
                else
                  match mp3DecodeErr env with
                  | Some e =>
                      (g3, emit (BodyClose body) w5, Some ("mp3 decode: " ++ e))
                  | None =>
                      let '(st, w6) := alloc w5 in
                      let '(c, w7) := alloc w6 in
                      (mkGoPlayer (Some st) (Some c) (Some body) (lastURL g3) true
                                  (initialized g3),
                       emit (SpeakerPlay c) w7, None)
                  end
            end
        end
    end.

Definition Stop (g : GoPlayer) (w : World) : GoPlayer * World * error :=
  let '(g1, w1) := stopLocked g w in (g1, w1, None).

Definition IsPlaying (g : GoPlayer) : bool := playing g.

Definition LastURL (g : GoPlayer) : string := lastURL g.

(** The callback queued behind the control node [c]: it runs when the
    decoder reaches the end of the stream. *)
Definition streamEnded (c : handle) (g : GoPlayer) (w : World) : GoPlayer * World :=
  match ctrl g with
  | Some c' =>
      if Nat.eqb c' c then
        cleanupLocked
          (mkGoPlayer (streamer g) (ctrl g) (resp g) (lastURL g) false (initialized g))
          w
      else (g, w)
  | None => (g, w)
  end.

(** The playback resources a [GoPlayer] owns. *)
Definition holds (g : GoPlayer) : bool :=
  match streamer g, resp g with
  | None, None => playing g
  | _, _ => true
  end.

End GoAudio.

(** ** Go's [strings] package, on byte strings

    A Go string is a sequence of bytes, here a [string] of [ascii].  The
    functions below are exact on ASCII text.  A byte above 0x7F is kept as it
    is: it is taken to be part of a rune that is printable, has no case and is
    no white space. *)

Module GoStrings.

Definition byte_in (lo hi : nat) (c : ascii) : bool :=
  Nat.leb lo (nat_of_ascii c) && Nat.leb (nat_of_ascii c) hi.

(** [asciiSpace]: tab, line feed, vertical tab, form feed, carriage return, space. *)
Definition isSpace (c : ascii) : bool :=
  byte_in 9 13 c || Nat.eqb (nat_of_ascii c) 32.

Definition upperByte (c : ascii) : ascii :=
  if byte_in 97 122 c then ascii_of_nat (nat_of_ascii c - 32) else c.

Definition lowerByte (c : ascii) : ascii :=
  if byte_in 65 90 c then ascii_of_nat (nat_of_ascii c + 32) else c.

Fixpoint map_bytes (f : ascii -> ascii) (s : string) : string :=
  match s with
  | EmptyString => EmptyString
  | String c r => String (f c) (map_bytes f r)
  end.

Definition ToUpper : string -> string := map_bytes upperByte.

Definition ToLower : string -> string := map_bytes lowerByte.

Fixpoint TrimLeft (s : string) : string :=
  match s with
  | EmptyString => EmptyString
  | String c r => if isSpace c then TrimLeft r else s
  end.

(** Drops the white space at the end: a byte stays when it is no space or
    when something stays after it. *)
Fixpoint TrimRight (s : string) : string :=
  match s with
  | EmptyString => EmptyString
  | String c r =>
      match TrimRight r with
      | EmptyString => if isSpace c then EmptyString else String c EmptyString
      | r' => String c r'
      end
  end.

Definition TrimSpace (s : string) : string := TrimRight (TrimLeft s).

Definition HasSuffix (s suffix : string) : bool :=
  let n := String.length s in
  let k := String.length suffix in
  Nat.leb k n && String.eqb (substring (n - k) k s) suffix.


(** [strings.HasPrefix] and [strings.Contains], byte by byte. *)
Fixpoint HasPrefix (s prefix : string) : bool :=
  match prefix, s with
  | EmptyString, _ => true
  | String _ _, EmptyString => false
  | String c p, String d r => Ascii.eqb c d && HasPrefix r p
  end.

Fixpoint Contains (s substr : string) : bool :=
  HasPrefix s substr
  || match s with
     | EmptyString => false
     | String _ r => Contains r substr
     end.


(** A string that does not start with white space. *)
Definition headed (s : string) : Prop :=
  match s with
  | EmptyString => True
  | String c _ => isSpace c = false
  end.

End GoStrings.

(** ** internal/player/mpv.go *)

Module Mpv.

(** An [*exec.Cmd]: [cmdId] is the pointer, [Process] is set by [Start]. *)
Record Cmd : Type := mkCmd {
  cmdId : handle;
  Process : option handle
}.

Record Player : Type := mkPlayer {
  cmd : option Cmd;
  backend : string;
  path : string;
  lastURL : string
}.

(** What the operating system answers during one [Play]. *)
Record ExtEnv : Type := mkExtEnv {
  cmdStartErr : error            (* cmd.Start *)
}.

Definition stopLocked (p : Player) (w : World) : Player * World * error :=
  match cmd p with
  | None => (p, w, None)
  | Some c =>
      let w1 := match Process c with
                | Some pid => emit (ProcKill pid) w
                | None => w
                end in
      (mkPlayer None (backend p) (path p) (lastURL p), w1, None)
  end.

Definition commandArgs (backend url : string) : option (list string) :=
  if String.eqb backend "mpv" then Some ["--no-video"; "--quiet"; url]
  else if String.eqb backend "ffplay" then
    Some ["-nodisp"; "-autoexit"; "-loglevel"; "quiet"; url]
  else None.

Definition Play (p : Player) (w : World) (env : ExtEnv) (url : string)
  : Player * World * error :=
  if String.eqb url "" then (p, w, Some "stream url is required")
  else
    let '(p1, w1, _) := stopLocked p w in
    let p2 := mkPlayer (cmd p1) (backend p1) (path p1) url in
    match commandArgs (backend p2) url with
    | None => (p2, w1, Some "no audio backend available")
    | Some args =>
        match cmdStartErr env with
        | Some e => (p2, w1, Some e)
        | None =>
            let '(c, w2) := alloc w1 in
            let '(pid, w3) := alloc w2 in
            (mkPlayer (Some (mkCmd c (Some pid))) (backend p2) (path p2) (lastURL p2),
             emit (ProcStart (path p2) args pid) w3, None)
        end
    end.

Definition Stop (p : Player) (w : World) : Player * World * error := stopLocked p w.

Definition IsPlaying (p : Player) : bool :=
  match cmd p with Some _ => true | None => false end.

Definition LastURL (p : Player) : string := lastURL p.

(** The goroutine started by [Play] for the command [local]: it runs when
    [local.Wait] returns. *)
Definition waitReturned (local : handle) (p : Player) : Player :=
  match cmd p with
  | Some c =>
      if Nat.eqb (cmdId c) local
      then mkPlayer None (backend p) (path p) (lastURL p)
      else p
  | None => p
  end.

Definition holds (p : Player) : bool := IsPlaying p.

(** *** Looking for an executable *)

Record FileInfo : Type := mkFileInfo {
  IsDir : bool;
  Mode : N
}.

(** The file system and search path as [newExternal] sees them.
    [findDownloadedPlayer] is declared in another file of the package; its
    result is taken as it comes. *)
Record Os : Type := mkOs {
  os_Executable : option string;                (* None: an error *)
  os_Stat : string -> option FileInfo;          (* None: an error *)
  filepath_Dir : string -> string;
  filepath_Join : string -> string -> string;
  exec_LookPath : string -> option string;      (* None: an error *)
  findDownloadedPlayer : string * string        (* (path, backend) *)
}.

(** What a lookup consulted, in order. *)
Inductive Probe : Type :=
| AskExecutable
| AskStat (path : string)
| AskDownloaded
| AskLookPath (name : string).

Definition isExecutable (os : Os) (path : string) : bool :=
  match os_Stat os path with
  | None => false
  | Some info =>
      if IsDir info then false
      else if GoStrings.HasSuffix (GoStrings.ToLower path) ".exe" then true
      else negb (N.eqb (N.land (Mode info) 73 (* 0o111 *)) 0)
  end.

Definition candidates : list (string * string) :=
  [("mpv", "mpv"); ("mpv", "mpv.exe"); ("ffplay", "ffplay"); ("ffplay", "ffplay.exe")].

(** The loop of [findBundledPlayer] over the candidates [(backend, name)]. *)
Fixpoint firstBundled (os : Os) (dir : string) (cs : list (string * string))
  : (string * string) * list Probe :=
  match cs with
  | [] => (("", ""), [])
  | (b, name) :: rest =>
      let p := filepath_Join os dir name in
      if isExecutable os p then ((p, b), [AskStat p])
      else
        let '(r, log) := firstBundled os dir rest in
        (r, AskStat p :: log)
  end.

Definition findBundledPlayer (os : Os) : (string * string) * list Probe :=
  match os_Executable os with
  | None => (("", ""), [AskExecutable])
  | Some exe =>
      let '(r, log) := firstBundled os (filepath_Dir os exe) candidates in
      (r, AskExecutable :: log)
  end.

Definition newPlayer (backend path : string) : Player :=
  mkPlayer None backend path "".

Definition newExternal (os : Os) : (option Player * error) * list Probe :=
  let '((path1, backend1), log1) := findBundledPlayer os in
  if negb (String.eqb path1 "") then
    ((Some (newPlayer backend1 path1), None), log1)
  else
    let '(path2, backend2) := findDownloadedPlayer os in
    let log2 := (log1 ++ [AskDownloaded])%list in
    if negb (String.eqb path2 "") then
      ((Some (newPlayer backend2 path2), None), log2)
    else
      let log3 := (log2 ++ [AskLookPath "mpv"])%list in
      match exec_LookPath os "mpv" with
      | Some path3 => ((Some (newPlayer "mpv" path3), None), log3)
      | None =>
          let log4 := (log3 ++ [AskLookPath "ffplay"])%list in
          match exec_LookPath os "ffplay" with
          | Some path4 => ((Some (newPlayer "ffplay" path4), None), log4)
          | None =>
              ((None, Some "mpv or ffplay not found (bundle one or add to PATH)"),
               log4)
          end
      end.




End Mpv.

(** ** Package player: the composite backend *)

Module Composite.

(** The interface value kept in [active]: Go stores there the pointer [c.gp]
    or the pointer [c.ext], so the field aliases one of the two backends. *)
Inductive Backend : Type :=
| TheGo      (* c.gp *)
| TheExt.    (* c.ext *)

Record CompositeBackend : Type := mkComposite {
  gp : option GoAudio.GoPlayer;
  ext : option Mpv.Player;
  active : option Backend;
  lastURL : string
}.

Record Env : Type := mkEnv {
  goEnv : GoAudio.GoEnv;
  extEnv : Mpv.ExtEnv
}.

Definition setGp (g : GoAudio.GoPlayer) (c : CompositeBackend) : CompositeBackend :=
  mkComposite (Some g) (ext c) (active c) (lastURL c).

Definition setExt (p : Mpv.Player) (c : CompositeBackend) : CompositeBackend :=
  mkComposite (gp c) (Some p) (active c) (lastURL c).

Definition setActive (b : Backend) (c : CompositeBackend) : CompositeBackend :=
  mkComposite (gp c) (ext c) (Some b) (lastURL c).

Definition setLastURL (url : string) (c : CompositeBackend) : CompositeBackend :=
  mkComposite (gp c) (ext c) (active c) url.

(** [b.Stop()] through the interface.  [None] is the nil-pointer panic of a
    method called on a backend that is not there. *)
Definition backendStop (b : Backend) (c : CompositeBackend) (w : World)
  : option (CompositeBackend * World * error) :=
  match b with
  | TheGo =>
      match gp c with
      | Some g => let '(g', w', e) := GoAudio.Stop g w in Some (setGp g' c, w', e)
      | None => None
      end
  | TheExt =>
      match ext c with
      | Some p => let '(p', w', e) := Mpv.Stop p w in Some (setExt p' c, w', e)
      | None => None
      end
  end.

Definition backendIsPlaying (b : Backend) (c : CompositeBackend) : option bool :=
  match b with
  | TheGo => option_map GoAudio.IsPlaying (gp c)
  | TheExt => option_map Mpv.IsPlaying (ext c)
  end.


(** Lines 29-34 of [Play]: record the url, stop the active backend (its
    error is dropped). *)
Definition playStop (c : CompositeBackend) (w : World) (url : string)
  : option (CompositeBackend * World) :=
  let c0 := setLastURL url c in
  match active c0 with
  | Some b =>
      match backendStop b c0 w with
      | Some (c1, w1, _) => Some (c1, w1)
      | None => None
      end
  | None => Some (c0, w)
  end.

(** Lines 36-45: the pure Go backend.  [inl] is the early [return nil],
    [inr errGo] goes on to the fallback. *)
Definition playGo (c : CompositeBackend) (w : World) (env : Env) (url : string)
  : CompositeBackend * World * (unit + error) :=
  match gp c with
  | Some g =>
      match GoAudio.Play g w (goEnv env) url with
      | (g', w', None) => (setActive TheGo (setGp g' c), w', inl tt)
      | (g', w', Some e) => (setGp g' c, w', inr (Some e))
      end
  | None => (c, w, inr None)
  end.

(** Lines 47-66: the external player, and the errors when nothing played. *)
Definition playExt (c : CompositeBackend) (w : World) (env : Env) (url : string)
  (errGo : error) : CompositeBackend * World * error :=
  match ext c with
  | Some p =>
      match Mpv.Play p w (extEnv env) url with
      | (p', w', None) => (setActive TheExt (setExt p' c), w', None)
      | (p', w', Some e) =>
          match errGo with
          | Some eg =>
              (setExt p' c, w', Some ("go-audio: " ++ eg ++ ", external: " ++ e))
          | None => (setExt p' c, w', Some e)
          end
      end
  | None =>
      match errGo with
      | Some eg =>
          (c, w,
           Some ("format not supported in pure Go; please install mpv or ffplay to listen (error: "
                   ++ eg ++ ")"))
      | None => (c, w, Some "no audio backend available; please install mpv or ffplay")
      end
  end.

Definition Play (c : CompositeBackend) (w : World) (env : Env) (url : string)
  : option (CompositeBackend * World * error) :=
  match playStop c w url with
  | None => None
  | Some (c1, w1) =>
      match playGo c1 w1 env url with
      | (c2, w2, inl _) => Some (c2, w2, None)
      | (c2, w2, inr errGo) => Some (playExt c2 w2 env url errGo)
      end
  end.

Definition Stop (c : CompositeBackend) (w : World)
  : option (CompositeBackend * World * error) :=
  match active c with
  | Some b => backendStop b c w
  | None => Some (c, w, None)
  end.

Definition IsPlaying (c : CompositeBackend) : option bool :=
  match active c with
  | Some b => backendIsPlaying b c
  | None => Some false
  end.

Definition LastURL (c : CompositeBackend) : string := lastURL c.

Definition New (os : Mpv.Os) : option CompositeBackend * error :=
  let g := GoAudio.probeGoAudio in
  let '((e, _), _) := Mpv.newExternal os in
  match g, e with
  | None, None => (None, Some "no player backend available")
  | _, _ => (Some (mkComposite g e None ""), None)
  end.

(** *** Well-formed composites *)

(** [active] points at a backend that exists: what [New] builds and what the
    methods keep ([Play] assigns [c.gp] or [c.ext] only when it is not nil). *)
Definition wf (c : CompositeBackend) : bool :=
  match active c with
  | Some TheGo => match gp c with Some _ => true | None => false end
  | Some TheExt => match ext c with Some _ => true | None => false end
  | None => true
  end.

Definition goHolds (c : CompositeBackend) : bool :=
  match gp c with Some g => GoAudio.holds g | None => false end.

Definition extHolds (c : CompositeBackend) : bool :=
  match ext c with Some p => Mpv.holds p | None => false end.

(** A backend that owns playback resources is the active one. *)
Definition exclusive (c : CompositeBackend) : bool :=
  (negb (goHolds c) || match active c with Some TheGo => true | _ => false end)
  && (negb (extHolds c) || match active c with Some TheExt => true | _ => false end).

Definition idle (c : CompositeBackend) : bool := negb (goHolds c) && negb (extHolds c).

(** What a method call leaves alone: which backends exist, whether the
    speaker is initialised, which executable the external player runs. *)
Definition sameSetup (c c' : CompositeBackend) : Prop :=
  option_map GoAudio.initialized (gp c') = option_map GoAudio.initialized (gp c)
  /\ option_map Mpv.backend (ext c') = option_map Mpv.backend (ext c).

(** The two texts of [Play] when the external player is missing. *)
Definition errUnsupported (eg : string) : string :=
  "format not supported in pure Go; please install mpv or ffplay to listen (error: "
    ++ eg ++ ")".

Definition errNoBackend : string :=
  "no audio backend available; please install mpv or ffplay".


End Composite.

(** ** [strconv.Quote], which [fmt] uses for the verb q *)

Module Strconv.

Definition dquote : string := String (ascii_of_nat 34) EmptyString.

Definition lowerhex : string := "0123456789abcdef".

Definition hexDigit (n : nat) : string :=
  match String.get n lowerhex with
  | Some c => String c EmptyString
  | None => EmptyString
  end.

(** One byte of the quoted text: the quote and the backslash get a backslash,
    printable ASCII and bytes of longer runes stay, the rest is escaped. *)
Definition quoteByte (c : ascii) : string :=
  let n := nat_of_ascii c in
  if Nat.eqb n 34 || Nat.eqb n 92 then String "\" (String c EmptyString)
  else if GoStrings.byte_in 32 126 c || Nat.leb 128 n then String c EmptyString
  else if Nat.eqb n 7 then "\a"
  else if Nat.eqb n 8 then "\b"
  else if Nat.eqb n 12 then "\f"
  else if Nat.eqb n 10 then "\n"
  else if Nat.eqb n 13 then "\r"
  else if Nat.eqb n 9 then "\t"
  else if Nat.eqb n 11 then "\v"
  else "\x" ++ hexDigit (n / 16) ++ hexDigit (n mod 16).

Fixpoint quoteBody (s : string) : string :=
  match s with
  | EmptyString => EmptyString
  | String c r => quoteByte c ++ quoteBody r
  end.

Definition Quote (s : string) : string := dquote ++ quoteBody s ++ dquote.


End Strconv.

(** ** Package ui: the control commands *)

Module Ui.

(** [radio.Station], without the frequency. *)
Record Station : Type := mkStation {
  UUID : string;
  Name : string;
  Tags : string
}.

Definition noStation : Station := mkStation "" "" "".

Record ipcReply : Type := mkReply {
  ok : bool;
  data : string;
  err : string
}.

(** A [chan ipcReply]: what waits in its buffer and what receivers took. *)
Record Chan : Type := mkChan {
  capacity : nat;
  queue : list ipcReply;
  received : list ipcReply
}.

Record ipcMsg : Type := mkMsg {
  cmd : string;
  reply : option Chan            (* None: a nil channel *)
}.

(** The session state the commands read and write.  [hasPlayer] and [hasIpc]
    say whether [m.player] and [m.ipc] are set; [search] is the value of the
    search input; the dial and the rendering fields are left out. *)
Record Model : Type := mkModel {
  hasPlayer : bool;
  hasIpc : bool;
  stations : list Station;
  filtered : list Station;
  selected : Z;
  country : string;
  search : string;
  playing : bool
}.

Inductive Cmd : Type :=
| CmdNil
| CmdListenIPC
| CmdPlayStation (s : Station)
| CmdDialTick
| CmdQuit
| CmdBatch (c1 c2 : Cmd).      (* tea.Batch of two commands *)

(** How one [select] of [sendIPCReply] ended, with the milliseconds it waited. *)
Inductive Send : Type :=
| Skipped
| Delivered (waited : nat)
| Dropped (waited : nat).

Inductive UiEvent : Type :=
| EvSend (r : ipcReply) (s : Send)
| EvPlayerStop
| EvIpcClose.

(** What the scheduler decides for one [select]: after how many milliseconds
    a receiver takes a value from the channel (None: never), and which case
    runs when the receiver and the timer are ready together. *)
Record SelectEnv : Type := mkSelectEnv {
  receiverAfter : option nat;
  tieToSend : bool
}.

Definition replyWindow : nat := 200.

Definition sendIPCReply (ch : option Chan) (r : ipcReply) (sel : SelectEnv)
  : option Chan * Send :=
  match ch with
  | None => (None, Skipped)
  | Some c =>
      if Nat.ltb (List.length (queue c)) (capacity c) then
        (Some (mkChan (capacity c) (queue c ++ [r]) (received c)), Delivered 0)
      else
        let handOver t :=
          match queue c with
          | [] => (Some (mkChan (capacity c) [] (received c ++ [r])), Delivered t)
          | q :: rest =>
              (Some (mkChan (capacity c) (rest ++ [r]) (received c ++ [q])),
               Delivered t)
          end in
        match receiverAfter sel with
        | Some t =>
            if Nat.ltb t replyWindow then handOver t
            else if Nat.eqb t replyWindow && tieToSend sel then handOver t
            else (Some c, Dropped replyWindow)
        | None => (Some c, Dropped replyWindow)
        end
  end.

Definition errEmptyCommand : string := "empty command".

(** Modelled from the spec: [parseIPCCommand] (the file that declares it is
    not among the sources; [handleIPC] calls it and ipc_test.go tests it).  The line is
    trimmed of surrounding white space and upper-cased; an empty token is a
    parse error.  The text of that error is not given: [errEmptyCommand]
    stands for it. *)
Definition parseIPCCommand (line : string) : string * error :=
  let token := GoStrings.ToUpper (GoStrings.TrimSpace line) in
  if String.eqb token "" then ("", Some errEmptyCommand) else (token, None).

Definition visibleStations (m : Model) : list Station :=
  if negb (String.eqb (GoStrings.TrimSpace (search m)) "") then filtered m
  else stations m.

Definition len {A : Type} (l : list A) : Z := Z.of_nat (List.length l).

Definition currentStation (m : Model) : Station * bool :=
  let list := visibleStations m in
  if Z.eqb (len list) 0 then (noStation, false)
  else if Z.ltb (selected m) 0 || Z.leb (len list) (selected m) then (noStation, false)
  else (nth (Z.to_nat (selected m)) list noStation, true).

Definition setSelected (i : Z) (m : Model) : Model :=
  mkModel (hasPlayer m) (hasIpc m) (stations m) (filtered m) i (country m) (search m)
          (playing m).

Definition setPlaying (b : bool) (m : Model) : Model :=
  mkModel (hasPlayer m) (hasIpc m) (stations m) (filtered m) (selected m) (country m)
          (search m) b.

Definition moveSelection (delta : Z) (m : Model) : Model * bool :=
  let list := visibleStations m in
  if Z.eqb (len list) 0 then (m, false)
  else
    let prev := selected m in
    let s1 := (prev + delta)%Z in
    let s2 := if Z.ltb s1 0 then 0%Z else s1 in
    let s3 := if Z.leb (len list) s2 then (len list - 1)%Z else s2 in
    (setSelected s3 m, negb (Z.eqb prev s3)).

Definition listenIPCCmd (m : Model) : Cmd :=
  if hasIpc m then CmdListenIPC else CmdNil.

Definition ipcPlayPause (m : Model) : Model * Cmd * ipcReply * list UiEvent :=
  if playing m then
    (setPlaying false m, CmdNil, mkReply true "" "",
     if hasPlayer m then [EvPlayerStop] else [])
  else
    match currentStation m with
    | (_, false) => (m, CmdNil, mkReply false "" "no station selected", [])
    | (station, true) => (m, CmdPlayStation station, mkReply true "QUEUED" "", [])
    end.

Definition ipcSelectAndPlay (delta : Z) (m : Model)
  : Model * Cmd * ipcReply * list UiEvent :=
  if Z.eqb (len (visibleStations m)) 0 then
    (m, CmdNil, mkReply false "" "no stations available", [])
  else
    let '(m1, _) := moveSelection delta m in
    match currentStation m1 with
    | (_, false) => (m1, CmdNil, mkReply false "" "no station selected", [])
    | (station, true) =>
        (m1, CmdBatch CmdDialTick (CmdPlayStation station), mkReply true "QUEUED" "", [])
    end.

Definition ipcStatus (m : Model) : string :=
  let '(station, _) := currentStation m in
  let name := if String.eqb (Name station) "" then "-" else Name station in
  let playing := if playing m then "true" else "false" in
  "{" ++ Strconv.dquote ++ "playing" ++ Strconv.dquote ++ ":" ++ playing
      ++ "," ++ Strconv.dquote ++ "station" ++ Strconv.dquote ++ ":" ++ Strconv.Quote name
      ++ "," ++ Strconv.dquote ++ "country" ++ Strconv.dquote ++ ":"
      ++ Strconv.Quote (country m) ++ "}".

Record Handled : Type := mkHandled {
  h_model : Model;
  h_cmd : Cmd;
  h_events : list UiEvent;       (* oldest first *)
  h_chan : option Chan
}.

Definition handleIPC (m : Model) (msg : ipcMsg) (sel : SelectEnv) : Handled :=
  match parseIPCCommand (cmd msg) with
  | (_, Some e) =>
      let '(ch, s) := sendIPCReply (reply msg) (mkReply false "" e) sel in
      mkHandled m (listenIPCCmd m) [EvSend (mkReply false "" e) s] ch
  | (c, None) =>
      if String.eqb c "QUIT" then
        let r := mkReply true "" "" in
        let '(ch, s) := sendIPCReply (reply msg) r sel in
        mkHandled m CmdQuit
          ([EvSend r s] ++ (if hasPlayer m then [EvPlayerStop] else [])
                        ++ (if hasIpc m then [EvIpcClose] else []))
          ch
      else
        let '(m1, cmdTea, r, evs) :=
          if String.eqb c "PLAY_PAUSE" then ipcPlayPause m
          else if String.eqb c "NEXT" then ipcSelectAndPlay 1 m
          else if String.eqb c "PREV" then ipcSelectAndPlay (-1) m
          else if String.eqb c "STATUS" then (m, CmdNil, mkReply true (ipcStatus m) "", [])
          else if String.eqb c "PING" then (m, CmdNil, mkReply true "OK" "", [])
          else (m, CmdNil, mkReply false "" "unknown command", []) in
        let '(ch, s) := sendIPCReply (reply msg) r sel in
        mkHandled m1 (CmdBatch cmdTea (listenIPCCmd m1)) (evs ++ [EvSend r s]) ch
  end.

(** The replies a handler passed to [sendIPCReply]. *)
Fixpoint replies (evs : list UiEvent) : list ipcReply :=
  match evs with
  | [] => []
  | EvSend r _ :: rest => r :: replies rest
  | _ :: rest => replies rest
  end.

(** The milliseconds a handler spent inside [sendIPCReply]. *)
Fixpoint blocked (evs : list UiEvent) : nat :=
  match evs with
  | [] => 0
  | EvSend _ (Delivered t) :: rest => t + blocked rest
  | EvSend _ (Dropped t) :: rest => t + blocked rest
  | _ :: rest => blocked rest
  end.

(** The commands of the control protocol. *)
Definition knownCommands : list string :=
  ["PLAY_PAUSE"; "NEXT"; "PREV"; "QUIT"; "STATUS"; "PING"].

(** Everything a channel took in, oldest first. *)
Definition accepted (ch : option Chan) : list ipcReply :=
  match ch with
  | Some c => received c ++ queue c
  | None => []
  end.


(** The layout of the status payload, around the two fields as written. *)
Definition statusFormat (playing : bool) (station country : string) : string :=
  "{" ++ Strconv.dquote ++ "playing" ++ Strconv.dquote ++ ":"
      ++ (if playing then "true" else "false")
      ++ "," ++ Strconv.dquote ++ "station" ++ Strconv.dquote ++ ":" ++ station
      ++ "," ++ Strconv.dquote ++ "country" ++ Strconv.dquote ++ ":" ++ country ++ "}".

(** The status payload as the protocol documents it, the name and the
    country code put between double quotes as they are. *)
Definition statusText (playing : bool) (name country : string) : string :=
  statusFormat playing (Strconv.dquote ++ name ++ Strconv.dquote)
               (Strconv.dquote ++ country ++ Strconv.dquote).


(** *** The station list: filter and selection *)

Definition setFiltered (l : list Station) (m : Model) : Model :=
  mkModel (hasPlayer m) (hasIpc m) (stations m) l (selected m) (country m) (search m)
          (playing m).

Definition setSearch (v : string) (m : Model) : Model :=
  mkModel (hasPlayer m) (hasIpc m) (stations m) (filtered m) (selected m) (country m) v
          (playing m).

(** The test of the loop of [applyFilter]. *)
Definition matchesFilter (filter : string) (st : Station) : bool :=
  GoStrings.Contains (GoStrings.ToLower (Name st)) filter
  || GoStrings.Contains (GoStrings.ToLower (Tags st)) filter.

(** The loop of [applyFilter]: the stations that match, in their order. *)
Fixpoint filterStations (filter : string) (l : list Station) : list Station :=
  match l with
  | [] => []
  | st :: rest =>
      if matchesFilter filter st then st :: filterStations filter rest
      else filterStations filter rest
  end.

(** A nil slice and an empty one are both the empty list. *)
Definition applyFilter (m : Model) : Model :=
  let filter := GoStrings.TrimSpace (GoStrings.ToLower (search m)) in
  if String.eqb filter "" then setFiltered [] m
  else
    let filtered := filterStations filter (stations m) in
    let m1 := if Z.eqb (len filtered) 0 then setSelected 0 m else m in
    setFiltered filtered m1.

Definition ensureSelection (m : Model) : Model :=
  let list := visibleStations m in
  if Z.eqb (len list) 0 then setSelected 0 m
  else
    let m1 := if Z.ltb (selected m) 0 then setSelected 0 m else m in
    if Z.leb (len list) (selected m1) then setSelected (len list - 1) m1 else m1.

(** The selection points into the visible list. *)
Definition selectionValid (m : Model) : Prop :=
  (0 <= selected m < len (visibleStations m))%Z.

(** What the search input does to the session on every key: the new value
    is filtered on and the selection is brought back into the list (the
    dial, which is left out, follows). *)
Definition searchChanged (v : string) (m : Model) : Model :=
  ensureSelection (applyFilter (setSearch v m)).

End Ui.

(** ** Callers of one composite, running together

    Each goroutine that calls [Play] or [Stop] on the shared composite is a
    program counter; [mu] is [c.mu].  A call to a backend is one step (the
    backend runs it under its own mutex).  The end-of-stream callback and the
    goroutine waiting for the child process are steps of their own, and may
    run between any two steps of a caller. *)

Module Threads.

Import Composite.

Inductive Pc : Type :=
| PlayLock (url : string)                   (* Play: at c.mu.Lock() *)
| PlayStop (url : string)                   (* Play: before line 29 *)
| PlayGo (url : string)                     (* Play: before line 38 *)
| PlayExt (url : string) (errGo : error)    (* Play: before line 49 *)
| StopLock                                  (* Stop: at c.mu.Lock() *)
| StopBody                                  (* Stop: before line 72 *)
| Unlock (err : error)                      (* the deferred c.mu.Unlock() *)
| Returned (err : error).

(** Between [Lock] and [Unlock]. *)
Definition inCritical (pc : Pc) : bool :=
  match pc with
  | PlayStop _ | PlayGo _ | PlayExt _ _ | StopBody | Unlock _ => true
  | PlayLock _ | StopLock | Returned _ => false
  end.

Definition atEntry (pc : Pc) : bool :=
  match pc with
  | PlayLock _ | StopLock => true
  | _ => false
  end.

Record Sys : Type := mkSys {
  comp : CompositeBackend;
  world : World;
  mu : bool;
  threads : list Pc
}.

Inductive step : Sys -> Sys -> Prop :=
| step_call : forall c w m ts pc,
    atEntry pc = true ->
    step (mkSys c w m ts) (mkSys c w m (ts ++ [pc]))
| step_play_lock : forall c w l1 l2 url,
    step (mkSys c w false (l1 ++ PlayLock url :: l2))
         (mkSys c w true (l1 ++ PlayStop url :: l2))
| step_play_stop : forall c w m l1 l2 url c' w',
    playStop c w url = Some (c', w') ->
    step (mkSys c w m (l1 ++ PlayStop url :: l2))
         (mkSys c' w' m (l1 ++ PlayGo url :: l2))
| step_play_go_ok : forall c w m l1 l2 url env c' w' u,
    playGo c w env url = (c', w', inl u) ->
    step (mkSys c w m (l1 ++ PlayGo url :: l2))
         (mkSys c' w' m (l1 ++ Unlock None :: l2))
| step_play_go_err : forall c w m l1 l2 url env c' w' errGo,
    playGo c w env url = (c', w', inr errGo) ->
    step (mkSys c w m (l1 ++ PlayGo url :: l2))
         (mkSys c' w' m (l1 ++ PlayExt url errGo :: l2))
| step_play_ext : forall c w m l1 l2 url errGo env c' w' r,
    playExt c w env url errGo = (c', w', r) ->
    step (mkSys c w m (l1 ++ PlayExt url errGo :: l2))
         (mkSys c' w' m (l1 ++ Unlock r :: l2))
| step_stop_lock : forall c w l1 l2,
    step (mkSys c w false (l1 ++ StopLock :: l2))
         (mkSys c w true (l1 ++ StopBody :: l2))
| step_stop_body : forall c w m l1 l2 c' w' r,
    Stop c w = Some (c', w', r) ->
    step (mkSys c w m (l1 ++ StopBody :: l2))
         (mkSys c' w' m (l1 ++ Unlock r :: l2))
| step_unlock : forall c w l1 l2 r,
    step (mkSys c w true (l1 ++ Unlock r :: l2))
         (mkSys c w false (l1 ++ Returned r :: l2))
| step_stream_ended : forall c w m ts h g g' w',
    gp c = Some g ->
    GoAudio.streamEnded h g w = (g', w') ->
    step (mkSys c w m ts) (mkSys (setGp g' c) w' m ts)
| step_wait_returned : forall c w m ts h p,
    ext c = Some p ->
    step (mkSys c w m ts) (mkSys (setExt (Mpv.waitReturned h p) c) w m ts).

Inductive steps : Sys -> Sys -> Prop :=
| steps_refl : forall s, steps s s
| steps_step : forall s1 s2 s3, steps s1 s2 -> step s2 s3 -> steps s1 s3.

Definition critCount (ts : list Pc) : nat := List.length (filter inCritical ts).

(** A start: the mutex is free, every caller is at the entry of its method,
    the composite is well formed and only its active backend owns resources. *)
Definition initial (s : Sys) : Prop :=
  mu s = false
  /\ forallb atEntry (threads s) = true
  /\ wf (comp s) = true
  /\ exclusive (comp s) = true.

Definition reachable (s : Sys) : Prop := exists s0, initial s0 /\ steps s0 s.

(** What holds of the composite while a caller is at [pc]. *)
Definition phaseOk (c : CompositeBackend) (pc : Pc) : bool :=
  match pc with
  | PlayGo _ | PlayExt _ _ => idle c
  | _ => exclusive c
  end.

Definition Inv (s : Sys) : Prop :=
  wf (comp s) = true
  /\ critCount (threads s) = (if mu s then 1 else 0)
  /\ (forall pc, In pc (threads s) -> inCritical pc = true -> phaseOk (comp s) pc = true)
  /\ (critCount (threads s) = 0 -> exclusive (comp s) = true).

End Threads.

(** ** Package radio: the station directory client *)

Module Radio.

(** [radio.Station], the fields the client reads. *)
Record Station : Type := mkStation {
  UUID : string;
  Name : string;
  URL : string;
  URLResolved : string
}.

Definition maxPageSize : Z := 500.

Definition sanitizePage (limit offset : Z) : Z * Z * error :=
  if Z.leb limit 0 then (0%Z, 0%Z, Some "limit must be greater than zero")
  else if Z.ltb maxPageSize limit then
    (0%Z, 0%Z, Some ("limit must be <= " ++ fmt_dZ maxPageSize))
  else if Z.ltb offset 0 then (0%Z, 0%Z, Some "offset must be >= 0")
  else (limit, offset, None).












End Radio.

(** ** Package ui: helpers of the view *)

Module View.

Definition max (a b : Z) : Z := if Z.ltb b a then a else b.

(** The part [start, end) of a list of [length] items that is shown when
    [max] lines are free.  Go's [/] rounds towards zero. *)
Definition listWindow (length selected max : Z) : Z * Z :=
  if Z.leb length max then (0%Z, length)
  else
    let start := (selected - Z.quot max 2)%Z in
    let start := if Z.ltb start 0 then 0%Z else start in
    let end_ := (start + max)%Z in
    let '(start, end_) :=
      if Z.ltb length end_ then ((length - max)%Z, length) else (start, end_) in
    let start := if Z.ltb start 0 then 0%Z else start in
    (start, end_).



Definition innerWidthForPanel (width : Z) : Z :=
  let inner := (width - 6)%Z in
  let inner := if Z.ltb inner 4 then max (width - 2) 2 else inner in
  if Z.ltb width inner then width else inner.

Definition fallback (value alt : string) : string :=
  if String.eqb (GoStrings.TrimSpace value) "" then alt else value.

End View.

(** ** Package config: favorites *)

Module Favorites.

Record Favorite : Type := mkFavorite {
  UUID : string;
  Name : string;
  Country : string;
  Tags : string
}.

(** [radio.Station], the fields a favorite keeps. *)
Record Station : Type := mkStation {
  sUUID : string;
  sName : string;
  sCountry : string;
  sTags : string
}.

(** A Go map from uuid to favorite: at most one entry per key, in no
    particular order. *)
Definition Items := list (string * Favorite).

Fixpoint lookup (key : string) (items : Items) : option Favorite :=
  match items with
  | [] => None
  | (k, v) :: rest => if String.eqb k key then Some v else lookup key rest
  end.

Fixpoint delete (key : string) (items : Items) : Items :=
  match items with
  | [] => []
  | (k, v) :: rest =>
      if String.eqb k key then delete key rest else (k, v) :: delete key rest
  end.

Definition insert (key : string) (v : Favorite) (items : Items) : Items :=
  (key, v) :: delete key items.

Record Favorites : Type := mkFavorites {
  path : string;
  items : Items
}.

(** What the file system answers to one [saveLocked]. *)
Record SaveEnv : Type := mkSaveEnv {
  mkdirAllErr : error;
  writeFileErr : error
}.

(** [json.MarshalIndent] does not fail on a list of favorites. *)
Definition saveLocked (f : Favorites) (env : SaveEnv) : error :=
  match mkdirAllErr env with
  | Some e => Some e
  | None => writeFileErr env
  end.

Definition Toggle (f : Favorites) (env : SaveEnv) (station : Station)
  : Favorites * bool * error :=
  if String.eqb (sUUID station) "" then (f, false, Some "station uuid is required")
  else
    match lookup (sUUID station) (items f) with
    | Some _ =>
        let f1 := mkFavorites (path f) (delete (sUUID station) (items f)) in
        (f1, false, saveLocked f1 env)
    | None =>
        let fav := mkFavorite (sUUID station) (sName station) (sCountry station)
                              (sTags station) in
        let f1 := mkFavorites (path f) (insert (sUUID station) fav (items f)) in
        (f1, true, saveLocked f1 env)
    end.

Definition IsFavorite (f : Favorites) (uuid : string) : bool :=
  match lookup uuid (items f) with Some _ => true | None => false end.

Definition Count (f : Favorites) : Z := Z.of_nat (List.length (items f)).

(** The keys of a map are distinct. *)
Fixpoint distinctKeys (items : Items) : bool :=
  match items with
  | [] => true
  | (k, _) :: rest =>
      match lookup k rest with
      | Some _ => false
      | None => distinctKeys rest
      end
  end.

End Favorites.

(** ** Sequences of calls on one backend *)

Module Runs.

(** The HTTP response bodies that are open after a log of effects. *)
Fixpoint openBodies (log : list Effect) (open : list handle) : list handle :=
  match log with
  | [] => open
  | HttpGet _ b :: rest => openBodies rest (open ++ [b])
  | BodyClose b :: rest =>
      openBodies rest (filter (fun h => negb (Nat.eqb h b)) open)
  | _ :: rest => openBodies rest open
  end.

(** What can happen to a [GoPlayer]: a call of [Play], a call of [Stop], the
    end-of-stream callback of a control node. *)
Inductive GoOp : Type :=
| GoPlay (env : GoAudio.GoEnv) (url : string)
| GoStop
| GoStreamEnded (ctrl : handle).

Definition goStep (st : GoAudio.GoPlayer * World) (op : GoOp) : GoAudio.GoPlayer * World :=
  match op with
  | GoPlay env url =>
      let '(g, w, _) := GoAudio.Play (fst st) (snd st) env url in (g, w)
  | GoStop => let '(g, w, _) := GoAudio.Stop (fst st) (snd st) in (g, w)
  | GoStreamEnded c => GoAudio.streamEnded c (fst st) (snd st)
  end.

Definition goRun (ops : list GoOp) (st : GoAudio.GoPlayer * World)
  : GoAudio.GoPlayer * World :=
  fold_left goStep ops st.

(** What can happen to a [Player]: [Play], [Stop], and the goroutine that
    waited for a command seeing it exit. *)
Inductive ExtOp : Type :=
| ExtPlay (env : Mpv.ExtEnv) (url : string)
| ExtStop
| ExtWaitReturned (cmd : handle).

Definition extStep (st : Mpv.Player * World) (op : ExtOp) : Mpv.Player * World :=
  match op with
  | ExtPlay env url =>
      let '(p, w, _) := Mpv.Play (fst st) (snd st) env url in (p, w)
  | ExtStop => let '(p, w, _) := Mpv.Stop (fst st) (snd st) in (p, w)
  | ExtWaitReturned c => (Mpv.waitReturned c (fst st), snd st)
  end.

Definition extRun (ops : list ExtOp) (st : Mpv.Player * World) : Mpv.Player * World :=
  fold_left extStep ops st.

(** The child processes a log started and did not kill. *)
Fixpoint unkilled (log : list Effect) (live : list handle) : list handle :=
  match log with
  | [] => live
  | ProcStart _ _ pid :: rest => unkilled rest (live ++ [pid])
  | ProcKill pid :: rest =>
      unkilled rest (filter (fun h => negb (Nat.eqb h pid)) live)
  | _ :: rest => unkilled rest live
  end.

(** The bookkeeping of a [GoPlayer] agrees with the world: the response body
    it holds is the one that is open, and it plays exactly when it holds a
    body, a decoder and a control node. *)
Definition goInv (st : GoAudio.GoPlayer * World) : Prop :=
  openBodies (effects (snd st)) []
  = match GoAudio.resp (fst st) with Some b => [b] | None => [] end
  /\ GoAudio.playing (fst st)
     = match GoAudio.resp (fst st) with Some _ => true | None => false end
  /\ GoAudio.playing (fst st)
     = match GoAudio.streamer (fst st) with Some _ => true | None => false end
  /\ (GoAudio.playing (fst st) = true -> GoAudio.ctrl (fst st) <> None).

(** A [Player] that tracks a command tracks a started process that it did
    not kill. *)
Definition extInv (st : Mpv.Player * World) : Prop :=
  match Mpv.cmd (fst st) with
  | Some c =>
      exists pid, Mpv.Process c = Some pid /\ In pid (unkilled (effects (snd st)) [])
  | None => True
  end.

End Runs.

(** ** Concrete composites and environments, for the examples *)

Module Scenarios.

Import Composite.

Definition urlA : string := "http://example.com/a.mp3".
Definition urlB : string := "http://example.com/b.aac".

(** Everything works: the stream answers 200 and decodes, the child starts. *)
Definition envGood : Env :=
  mkEnv (GoAudio.mkGoEnv None None (inr 200) None) (Mpv.mkExtEnv None).

(** The stream is not MP3 and no child can be started. *)
Definition envBad : Env :=
  mkEnv (GoAudio.mkGoEnv None None (inr 200) (Some "mp3: invalid header"))
        (Mpv.mkExtEnv (Some "fork/exec /usr/bin/mpv: no such file or directory")).

(** The stream is not MP3, the child starts. *)
Definition envAac : Env :=
  mkEnv (GoAudio.mkGoEnv None None (inr 200) (Some "mp3: invalid header"))
        (Mpv.mkExtEnv None).

(** The server answers 404. *)
Definition env404 : Env :=
  mkEnv (GoAudio.mkGoEnv None None (inr 404) None) (Mpv.mkExtEnv None).

(** What [New] builds when mpv is installed, and when no player is. *)
Definition both : CompositeBackend :=
  mkComposite (Some GoAudio.NewGoPlayer) (Some (Mpv.newPlayer "mpv" "/usr/bin/mpv")) None "".

Definition goOnly : CompositeBackend :=
  mkComposite (Some GoAudio.NewGoPlayer) None None "".

Definition none : CompositeBackend := mkComposite None None None "".

(** [c] after [Play url]: the composite and the world, [none] on a panic. *)
Definition after (st : CompositeBackend * World) (env : Env) (url : string)
  : CompositeBackend * World :=
  match Play (fst st) (snd st) env url with
  | Some (c', w', _) => (c', w')
  | None => (none, snd st)
  end.

(** [goOnly] playing [urlA] on the Go backend; [both] playing [urlB] on mpv. *)
Definition goPlaying : CompositeBackend * World := after (goOnly, world0) envGood urlA.

Definition extPlaying : CompositeBackend * World := after (both, world0) envAac urlB.

(** [both] playing [urlA] on the Go backend. *)
Definition bothGoPlaying : CompositeBackend * World := after (both, world0) envGood urlA.

(** A directory /opt/valvefm holding the running binary, with [files] beside
    it (each a regular file with mode 0755), and [onPath] on the search path. *)
Definition osWith (files : list string) (downloaded : string * string)
  (onPath : list (string * string)) : Mpv.Os :=
  Mpv.mkOs (Some "/opt/valvefm/radio")
    (fun p => if existsb (String.eqb p) files
              then Some (Mpv.mkFileInfo false 493) else None)
    (fun _ => "/opt/valvefm")
    (fun d n => d ++ "/" ++ n)
    (fun n => match find (fun e => String.eqb (fst e) n) onPath with
              | Some e => Some (snd e)
              | None => None
              end)
    downloaded.

(** The session of the tests: five stations, the first selected. *)
Definition testModel : Ui.Model :=
  Ui.mkModel true true
    [Ui.mkStation "1" "Rock FM" "rock,metal"; Ui.mkStation "2" "Pop Radio" "pop,hits";
     Ui.mkStation "3" "Jazz Station" "jazz,smooth"; Ui.mkStation "4" "News Talk" "news,talk";
     Ui.mkStation "5" "Classical Music" "classical"]
    [] 0 "US" "" false.






(** A reply channel with room for one reply, as the tests make it; and one
    whose buffer is full and that nobody reads. *)
Definition freshChan : Ui.Chan := Ui.mkChan 1 [] [].

Definition fullChan : Ui.Chan := Ui.mkChan 1 [Ui.mkReply true "" ""] [].

Definition noReceiver : Ui.SelectEnv := Ui.mkSelectEnv None false.

(** A Go player after a first [Play] of [urlA] (its control node is 2), and
    the result of a second [Play], of [urlB], on it. *)
Definition goFirstPlay : GoAudio.GoPlayer * World :=
  fst (GoAudio.Play GoAudio.NewGoPlayer world0 (Composite.goEnv envGood) urlA).

Definition goSecondPlay : GoAudio.GoPlayer * World * error :=
  GoAudio.Play (fst goFirstPlay) (snd goFirstPlay) (Composite.goEnv envGood) urlB.

(** [both] playing on mpv, and the result of a second [Play] on its player. *)
Definition extFirstPlay : Mpv.Player * World :=
  fst (Mpv.Play (Mpv.newPlayer "mpv" "/usr/bin/mpv") world0 (Mpv.mkExtEnv None) urlA).

Definition extSecondPlay : Mpv.Player * World * error :=
  Mpv.Play (fst extFirstPlay) (snd extFirstPlay) (Mpv.mkExtEnv None) urlB.

End Scenarios.

(** * Properties *)

(** Case analysis on whatever a goal or a hypothesis branches on. *)
Ltac break_match :=
  match goal with
  | H : context [match ?x with _ => _ end] |- _ => destruct x eqn:?
  | |- context [match ?x with _ => _ end] => destruct x eqn:?
  | H : context [if ?x then _ else _] |- _ => destruct x eqn:?
  | |- context [if ?x then _ else _] => destruct x eqn:?
  end.

Ltac inv_pairs :=
  repeat match goal with
  | H : (_, _) = (_, _) |- _ => inversion H; clear H; subst
  | H : Some _ = Some _ |- _ => inversion H; clear H; subst
  | H : inl _ = inl _ |- _ => inversion H; clear H; subst
  | H : inr _ = inr _ |- _ => inversion H; clear H; subst
  end.

Ltac crunch :=
  repeat (simpl in *; inv_pairs; try discriminate; try break_match);
  simpl in *; inv_pairs; try discriminate; try congruence; auto.

Module GoAudioFacts.

Import GoAudio.

Lemma cleanupLocked_idle g w : holds (fst (cleanupLocked g w)) = false.
Proof. reflexivity. Qed.

Lemma stopLocked_idle g w : holds (fst (stopLocked g w)) = false.
Proof. unfold stopLocked. destruct (ctrl g); reflexivity. Qed.

Lemma stopLocked_lastURL g w : lastURL (fst (stopLocked g w)) = lastURL g.
Proof. unfold stopLocked. destruct (ctrl g); reflexivity. Qed.

Lemma go_Stop_spec g w g' w' e :
  Stop g w = (g', w', e) ->
  e = None /\ holds g' = false /\ playing g' = false /\ lastURL g' = lastURL g.
Proof.
  unfold Stop. destruct (stopLocked g w) as [g1 w1] eqn:E. intros H; inv_pairs.
  pose proof (stopLocked_idle g w) as Hi. pose proof (stopLocked_lastURL g w) as Hl.
  rewrite E in Hi, Hl. simpl in Hi, Hl. repeat split; auto.
  unfold holds in Hi. destruct (streamer g'), (resp g'); congruence.
Qed.

Lemma go_Play_empty g w env : Play g w env "" = (g, w, Some "stream url is required").
Proof. reflexivity. Qed.

(** A [Play] that succeeds owns the new stream. *)
Lemma go_Play_ok g w env url g' w' :
  Play g w env url = (g', w', None) ->
  url <> "" /\ holds g' = true /\ playing g' = true /\ lastURL g' = url.
Proof.
  unfold Play, initSpeaker, alloc. intros H.
  destruct (String.eqb_spec url ""); [discriminate|].
  destruct (stopLocked g w) as [g1 w1].
  crunch; repeat split; auto.
Qed.

(** A [Play] that fails owns nothing afterwards, unless the url was empty
    and the player was left as it was. *)
Lemma go_Play_err g w env url g' w' e :
  Play g w env url = (g', w', Some e) ->
  (url = "" /\ g' = g /\ w' = w)
  \/ (url <> "" /\ holds g' = false /\ playing g' = false /\ lastURL g' = url).
Proof.
  unfold Play, initSpeaker, alloc. intros H.
  destruct (String.eqb_spec url ""); [left; inv_pairs; auto|right].
  pose proof (stopLocked_idle g w) as Hi.
  destruct (stopLocked g w) as [g1 w1]. simpl in Hi.
  assert (playing g1 = false /\ streamer g1 = None /\ resp g1 = None) as (Hp & Hs & Hr).
  { unfold holds in Hi. destruct (streamer g1), (resp g1); try discriminate. auto. }
  unfold holds.
  crunch; rewrite ?Hp, ?Hs, ?Hr; repeat split; auto.
Qed.

Lemma go_Play_idle_after_err g w env url g' w' e :
  holds g = false ->
  Play g w env url = (g', w', Some e) -> holds g' = false.
Proof.
  intros Hg H. apply go_Play_err in H. destruct H as [(_ & -> & _)|(_ & H & _)]; auto.
Qed.

Lemma streamEnded_holds h g w :
  holds (fst (streamEnded h g w)) = true -> holds g = true.
Proof.
  unfold streamEnded. destruct (ctrl g); auto.
  destruct (Nat.eqb h0 h); auto. simpl. discriminate.
Qed.

End GoAudioFacts.

Module MpvFacts.

Import Mpv.

Lemma stopLocked_spec p w p' w' e :
  stopLocked p w = (p', w', e) ->
  e = None /\ cmd p' = None /\ lastURL p' = lastURL p
  /\ backend p' = backend p /\ path p' = path p.
Proof. unfold stopLocked. intros H. destruct p; crunch. Qed.

Lemma ext_Play_empty p w env : Play p w env "" = (p, w, Some "stream url is required").
Proof. reflexivity. Qed.

Lemma ext_Play_ok p w env url p' w' :
  Play p w env url = (p', w', None) ->
  url <> "" /\ holds p' = true /\ lastURL p' = url.
Proof.
  unfold Play, alloc. intros H.
  destruct (String.eqb_spec url ""); [discriminate|].
  destruct (stopLocked p w) as [[p1 w1] e1]. crunch.
Qed.

Lemma ext_Play_err p w env url p' w' e :
  Play p w env url = (p', w', Some e) ->
  (url = "" /\ p' = p /\ w' = w)
  \/ (url <> "" /\ holds p' = false /\ lastURL p' = url).
Proof.
  unfold Play, alloc. intros H.
  destruct (String.eqb_spec url ""); [left; inv_pairs; auto|right].
  destruct (stopLocked p w) as [[p1 w1] e1] eqn:E.
  apply stopLocked_spec in E. destruct E as (_ & Hc & _).
  unfold holds, IsPlaying. crunch; rewrite Hc; auto.
Qed.

Lemma ext_Play_idle_after_err p w env url p' w' e :
  holds p = false ->
  Play p w env url = (p', w', Some e) -> holds p' = false.
Proof.
  intros Hp H. apply ext_Play_err in H. destruct H as [(_ & -> & _)|(_ & H & _)]; auto.
Qed.

Lemma waitReturned_holds h p : holds (waitReturned h p) = true -> holds p = true.
Proof.
  unfold waitReturned, holds, IsPlaying.
  destruct (cmd p) as [c|] eqn:E; [|rewrite E; auto].
  destruct (Nat.eqb (cmdId c) h); simpl; rewrite ?E; auto.
Qed.

(** A player that [newExternal] returns runs nothing yet. *)
Lemma newExternal_idle os p :
  fst (fst (newExternal os)) = Some p -> holds p = false.
Proof.
  unfold newExternal.
  destruct (findBundledPlayer os) as [[p1 b1] log1].
  destruct (findDownloadedPlayer os) as [p2 b2].
  repeat break_match; simpl; intros H; inv_pairs; try discriminate; reflexivity.
Qed.

End MpvFacts.

(** ** The effect log only grows *)

Module WorldFacts.

Lemma extends_refl w : extends w w.
Proof. exists []. now rewrite app_nil_r. Qed.

Lemma extends_trans w1 w2 w3 : extends w1 w2 -> extends w2 w3 -> extends w1 w3.
Proof.
  intros [l1 H1] [l2 H2]. exists (l1 ++ l2)%list. now rewrite H2, H1, app_assoc.
Qed.

Lemma extends_emit e w : extends w (emit e w).
Proof. now exists [e]. Qed.

Lemma extends_alloc w : extends w (snd (alloc w)).
Proof. exists []. simpl. now rewrite app_nil_r. Qed.

Lemma releases_refl w : releases w w.
Proof. exists []. split; [now rewrite app_nil_r|reflexivity]. Qed.

Lemma releases_trans w1 w2 w3 : releases w1 w2 -> releases w2 w3 -> releases w1 w3.
Proof.
  intros (l1 & H1 & F1) (l2 & H2 & F2). exists (l1 ++ l2)%list. split.
  - now rewrite H2, H1, app_assoc.
  - rewrite forallb_app, F1, F2. reflexivity.
Qed.

Lemma releases_emit e w : isRelease e = true -> releases w (emit e w).
Proof. intros H. exists [e]. simpl. now rewrite H. Qed.

Lemma releases_extends w w' : releases w w' -> extends w w'.
Proof. intros (l & H & _). now exists l. Qed.

End WorldFacts.

Module BackendEffects.

Import WorldFacts.

Lemma go_cleanupLocked_releases g w : releases w (snd (GoAudio.cleanupLocked g w)).
Proof.
  unfold GoAudio.cleanupLocked. cbn [snd].
  destruct (GoAudio.streamer g), (GoAudio.resp g);
    repeat first [apply releases_refl
                 | eapply releases_trans; [|apply releases_emit; reflexivity]].
Qed.

Lemma go_stopLocked_releases g w : releases w (snd (GoAudio.stopLocked g w)).
Proof.
  unfold GoAudio.stopLocked. destruct (GoAudio.ctrl g).
  - eapply releases_trans; [|apply go_cleanupLocked_releases].
    apply releases_emit; reflexivity.
  - apply go_cleanupLocked_releases.
Qed.

Lemma go_Stop_releases g w g' w' e :
  GoAudio.Stop g w = (g', w', e) -> releases w w'.
Proof.
  unfold GoAudio.Stop. pose proof (go_stopLocked_releases g w) as H.
  destruct (GoAudio.stopLocked g w). intros E. inv_pairs. exact H.
Qed.

Lemma go_Play_extends g w env url g' w' e :
  GoAudio.Play g w env url = (g', w', e) -> extends w w'.
Proof.
  unfold GoAudio.Play, GoAudio.initSpeaker.
  pose proof (releases_extends (go_stopLocked_releases g w)) as H.
  destruct (GoAudio.stopLocked g w) as [g1 w1]. simpl in H. intros E.
  assert (forall w2, extends w1 w2 -> extends w w2) as K
      by (intros; eapply extends_trans; eauto).
  destruct (String.eqb url ""); [inv_pairs; apply extends_refl|].
  repeat break_match; inv_pairs; try discriminate; apply K;
    repeat first [ apply extends_refl
                 | eapply extends_trans; [|apply extends_emit]
                 | eapply extends_trans; [|apply (extends_alloc _)] ];
    unfold alloc in *; inv_pairs;
    repeat first [ apply extends_refl
                 | exact (extends_alloc _)
                 | eapply extends_trans; [|apply extends_emit]
                 | eapply extends_trans; [|exact (extends_alloc _)] ].
Qed.

Lemma ext_stopLocked_releases p w p' w' e :
  Mpv.stopLocked p w = (p', w', e) -> releases w w'.
Proof.
  unfold Mpv.stopLocked. intros H.
  repeat break_match; inv_pairs;
    first [apply releases_refl | apply releases_emit; reflexivity].
Qed.

Lemma ext_Play_extends p w env url p' w' e :
  Mpv.Play p w env url = (p', w', e) -> extends w w'.
Proof.
  unfold Mpv.Play. intros H.
  destruct (String.eqb url ""); [inv_pairs; apply extends_refl|].
  destruct (Mpv.stopLocked p w) as [[p1 w1] e1] eqn:E.
  apply ext_stopLocked_releases, releases_extends in E.
  assert (forall w2, extends w1 w2 -> extends w w2) as K
      by (intros; eapply extends_trans; eauto).
  unfold alloc in *.
  repeat break_match; inv_pairs; try discriminate; apply K;
    repeat first [ apply extends_refl
                 | exact (extends_alloc _)
                 | eapply extends_trans; [|apply extends_emit]
                 | eapply extends_trans; [|exact (extends_alloc _)] ].
Qed.

End BackendEffects.

Module CompositeFacts.

Import Composite WorldFacts.

Lemma sameSetup_refl c : sameSetup c c.
Proof. split; reflexivity. Qed.

Lemma sameSetup_trans c1 c2 c3 : sameSetup c1 c2 -> sameSetup c2 c3 -> sameSetup c1 c3.
Proof. intros [A B] [C D]. split; congruence. Qed.

Lemma go_stopLocked_initialized g w :
  GoAudio.initialized (fst (GoAudio.stopLocked g w)) = GoAudio.initialized g.
Proof. unfold GoAudio.stopLocked. destruct (GoAudio.ctrl g); reflexivity. Qed.

Lemma idle_exclusive c : idle c = true -> exclusive c = true.
Proof.
  unfold idle, exclusive. intros H. apply andb_true_iff in H. destruct H as [A B].
  rewrite A, B. reflexivity.
Qed.

Lemma exclusive_one_holder c :
  exclusive c = true -> goHolds c && extHolds c = false.
Proof.
  unfold exclusive. destruct (goHolds c), (extHolds c), (active c) as [[|]|]; simpl; auto.
Qed.

(** Stopping the backend [active] points at. *)
Lemma backendStop_spec b c w :
  active c = Some b -> wf c = true ->
  exists c' w',
    backendStop b c w = Some (c', w', None)
    /\ active c' = active c /\ lastURL c' = lastURL c
    /\ wf c' = true
    /\ backendIsPlaying b c' = Some false
    /\ (exclusive c = true -> idle c' = true)
    /\ releases w w'
    /\ sameSetup c c'
    /\ option_map Mpv.lastURL (ext c') = option_map Mpv.lastURL (ext c)
    /\ option_map GoAudio.lastURL (gp c') = option_map GoAudio.lastURL (gp c).
Proof.
  intros Ha Hwf. unfold wf in Hwf. rewrite Ha in Hwf.
  destruct b; unfold backendStop.
  - destruct (gp c) as [g|] eqn:Eg; [|discriminate].
    destruct (GoAudio.Stop g w) as [[g' w'] e] eqn:Es.
    pose proof (BackendEffects.go_Stop_releases _ _ Es) as Hr.
    pose proof (go_stopLocked_initialized g w) as Hi.
    unfold GoAudio.Stop in Es. destruct (GoAudio.stopLocked g w) as [g1 w1] eqn:E1.
    inv_pairs. simpl in Hi.
    pose proof (GoAudioFacts.stopLocked_idle g w) as Hh.
    pose proof (GoAudioFacts.stopLocked_lastURL g w) as Hl.
    rewrite E1 in Hh, Hl. simpl in Hh, Hl.
    exists (setGp g' c), w'. unfold wf, exclusive, idle, goHolds, extHolds, sameSetup.
    simpl. rewrite Ha, Eg, Hh, Hi, Hl. simpl.
    repeat split; auto.
    + unfold GoAudio.IsPlaying, GoAudio.holds in *.
      destruct (GoAudio.streamer g'), (GoAudio.resp g'); congruence.
    + intros H. destruct (ext c); simpl in *; auto.
      destruct (Mpv.holds p); simpl in *; auto.
      rewrite andb_false_r in H. discriminate.
  - destruct (ext c) as [p|] eqn:Ep; [|discriminate].
    unfold Mpv.Stop. destruct (Mpv.stopLocked p w) as [[p' w'] e] eqn:Es.
    pose proof (BackendEffects.ext_stopLocked_releases _ _ Es) as Hr.
    apply MpvFacts.stopLocked_spec in Es. destruct Es as (-> & Hc & Hl & Hb & _).
    exists (setExt p' c), w'. unfold wf, exclusive, idle, goHolds, extHolds, sameSetup.
    simpl. rewrite Ha, Ep. unfold Mpv.holds, Mpv.IsPlaying. rewrite Hc, Hl, Hb. simpl.
    repeat split; auto.
    intros H. destruct (gp c); simpl in *; auto.
    destruct (GoAudio.holds g); simpl in *; auto.
Qed.

(** Lines 29-34 of [Play]. *)
Lemma playStop_spec c w url :
  wf c = true ->
  exists c1 w1,
    playStop c w url = Some (c1, w1)
    /\ active c1 = active c /\ lastURL c1 = url
    /\ wf c1 = true
    /\ IsPlaying c1 = Some false
    /\ (exclusive c = true -> idle c1 = true)
    /\ releases w w1
    /\ sameSetup c c1
    /\ option_map Mpv.lastURL (ext c1) = option_map Mpv.lastURL (ext c)
    /\ option_map GoAudio.lastURL (gp c1) = option_map GoAudio.lastURL (gp c).
Proof.
  intros Hwf. unfold playStop.
  destruct (active c) as [b|] eqn:Ea.
  - assert (active (setLastURL url c) = Some b) as Ha by (simpl; auto).
    assert (wf (setLastURL url c) = true) as Hw by (unfold wf in *; simpl; rewrite Ea in *; auto).
    destruct (backendStop_spec (setLastURL url c) w Ha Hw)
      as (c1 & w1 & Es & A1 & A2 & A3 & A4 & A5 & A6 & A7 & A8 & A9).
    simpl. rewrite Ea. simpl in Es. rewrite Es.
    exists c1, w1. unfold IsPlaying. rewrite A1. simpl in *. rewrite Ea.
    repeat split; auto; try apply A7.
  - simpl. rewrite Ea. exists (setLastURL url c), w.
    unfold IsPlaying, wf, exclusive, idle, goHolds, extHolds, sameSetup. simpl. rewrite Ea.
    repeat split; auto using releases_refl.
    intros H. rewrite !orb_false_r in H. exact H.
Qed.

(** Whether a backend's [Play] fails, and with what, does not depend on what
    it was playing before. *)
Lemma go_Play_error_indep g1 g2 w1 w2 env url :
  GoAudio.initialized g1 = GoAudio.initialized g2 ->
  snd (GoAudio.Play g1 w1 env url) = snd (GoAudio.Play g2 w2 env url).
Proof.
  intros Hi. unfold GoAudio.Play.
  destruct (String.eqb url ""); [reflexivity|].
  pose proof (go_stopLocked_initialized g1 w1) as H1.
  pose proof (go_stopLocked_initialized g2 w2) as H2.
  destruct (GoAudio.stopLocked g1 w1) as [a1 b1].
  destruct (GoAudio.stopLocked g2 w2) as [a2 b2]. simpl in H1, H2.
  unfold GoAudio.initSpeaker, alloc. simpl. rewrite H1, H2, Hi.
  destruct (GoAudio.initialized g2), (GoAudio.speakerInitErr env),
    (GoAudio.newRequestErr env), (GoAudio.httpDo env), (GoAudio.mp3DecodeErr env);
    simpl; try reflexivity;
    destruct (Nat.eqb n GoAudio.http_StatusOK); reflexivity.
Qed.

Lemma ext_Play_error_indep p1 p2 w1 w2 env url :
  Mpv.backend p1 = Mpv.backend p2 ->
  snd (Mpv.Play p1 w1 env url) = snd (Mpv.Play p2 w2 env url).
Proof.
  intros Hb. unfold Mpv.Play.
  destruct (String.eqb url ""); [reflexivity|].
  destruct (Mpv.stopLocked p1 w1) as [[a1 b1] e1] eqn:E1.
  destruct (Mpv.stopLocked p2 w2) as [[a2 b2] e2] eqn:E2.
  apply MpvFacts.stopLocked_spec in E1, E2.
  destruct E1 as (_ & _ & _ & B1 & _). destruct E2 as (_ & _ & _ & B2 & _).
  unfold alloc. simpl. rewrite B1, B2, Hb.
  destruct (Mpv.commandArgs (Mpv.backend p2) url), (Mpv.cmdStartErr env); reflexivity.
Qed.

(** Lines 36-45 of [Play]. *)
Lemma playGo_spec c w env url :
  exists c2 w2 res,
    playGo c w env url = (c2, w2, res)
    /\ ext c2 = ext c /\ lastURL c2 = lastURL c
    /\ extends w w2
    /\ res = match gp c with
             | None => inr None
             | Some g =>
                 match snd (GoAudio.Play g w (goEnv env) url) with
                 | None => inl tt
                 | Some e => inr (Some e)
                 end
             end
    /\ match res with
       | inl _ =>
           active c2 = Some TheGo /\ goHolds c2 = true
           /\ backendIsPlaying TheGo c2 = Some true
           /\ option_map GoAudio.lastURL (gp c2) = Some url
       | inr e =>
           active c2 = active c
           /\ (goHolds c = false -> goHolds c2 = false)
           /\ (backendIsPlaying TheGo c = Some false ->
               backendIsPlaying TheGo c2 = Some false)
           /\ (gp c = None <-> gp c2 = None)
           /\ (url <> "" -> gp c <> None ->
               option_map GoAudio.lastURL (gp c2) = Some url)
       end.
Proof.
  unfold playGo. destruct (gp c) as [g|] eqn:Eg.
  - destruct (GoAudio.Play g w (goEnv env) url) as [[g' w'] [e|]] eqn:Ep.
    + pose proof (BackendEffects.go_Play_extends _ _ _ _ Ep) as Hx.
      exists (setGp g' c), w', (inr (Some e)). simpl.
      unfold goHolds. simpl. rewrite Eg. simpl.
      repeat split; auto; try discriminate.
      * intros Hh. eapply GoAudioFacts.go_Play_idle_after_err; eauto.
      * intros Hh. apply GoAudioFacts.go_Play_err in Ep.
        destruct Ep as [(_ & -> & _)|(_ & _ & Hpl & _)]; auto.
        unfold GoAudio.IsPlaying. now rewrite Hpl.
      * intros Hu _. apply GoAudioFacts.go_Play_err in Ep.
        destruct Ep as [(Hu' & _)|(_ & _ & _ & Hl)]; [contradiction|].
        now rewrite Hl.
    + pose proof (BackendEffects.go_Play_extends _ _ _ _ Ep) as Hx.
      apply GoAudioFacts.go_Play_ok in Ep. destruct Ep as (_ & Hh & Hpl & Hl).
      exists (setActive TheGo (setGp g' c)), w', (inl tt). simpl.
      unfold goHolds, GoAudio.IsPlaying. simpl. rewrite Hh, Hpl, Hl.
      repeat split; auto.
  - exists c, w, (inr None). rewrite Eg. unfold goHolds. rewrite Eg. simpl.
    repeat split; auto using extends_refl; try contradiction.
Qed.

(** Lines 47-66 of [Play]. *)
Lemma playExt_spec c w env url errGo :
  exists c3 w3 r,
    playExt c w env url errGo = (c3, w3, r)
    /\ gp c3 = gp c /\ lastURL c3 = lastURL c
    /\ extends w w3
    /\ r = match ext c with
           | Some p =>
               match snd (Mpv.Play p w (extEnv env) url), errGo with
               | None, _ => None
               | Some e, Some eg => Some ("go-audio: " ++ eg ++ ", external: " ++ e)
               | Some e, None => Some e
               end
           | None =>
               match errGo with
               | Some eg =>
                   Some ("format not supported in pure Go; please install mpv or ffplay to listen (error: "
                           ++ eg ++ ")")
               | None => Some "no audio backend available; please install mpv or ffplay"
               end
           end
    /\ match r with
       | None =>
           active c3 = Some TheExt /\ extHolds c3 = true
           /\ backendIsPlaying TheExt c3 = Some true
           /\ option_map Mpv.lastURL (ext c3) = Some url
       | Some _ =>
           active c3 = active c
           /\ (extHolds c = false -> extHolds c3 = false)
           /\ (backendIsPlaying TheExt c = Some false ->
               backendIsPlaying TheExt c3 = Some false)
           /\ (ext c = None <-> ext c3 = None)
       end.
Proof.
  unfold playExt. destruct (ext c) as [p|] eqn:Ee.
  - destruct (Mpv.Play p w (extEnv env) url) as [[p' w'] [e|]] eqn:Ep.
    + pose proof (BackendEffects.ext_Play_extends _ _ _ _ Ep) as Hx.
      assert (extHolds c = false -> Mpv.holds p' = false) as K1.
      { unfold extHolds. rewrite Ee. intros Hh.
        eapply MpvFacts.ext_Play_idle_after_err; eauto. }
      assert (Mpv.IsPlaying p = false -> Mpv.IsPlaying p' = false) as K2.
      { intros Hh. eapply MpvFacts.ext_Play_idle_after_err; eauto. }
      destruct errGo as [eg|]; eexists (setExt p' c), w', _; simpl;
        unfold extHolds; simpl; rewrite ?Ee; simpl;
        (repeat split; auto; try discriminate);
        intros Hh; f_equal; apply K2; congruence.
    + pose proof (BackendEffects.ext_Play_extends _ _ _ _ Ep) as Hx.
      apply MpvFacts.ext_Play_ok in Ep. destruct Ep as (_ & Hh & Hl).
      exists (setActive TheExt (setExt p' c)), w', None. simpl.
      unfold extHolds. simpl. unfold Mpv.holds in Hh. rewrite Hh, Hl.
      repeat split; auto.
  - destruct errGo as [eg|]; eexists c, w, _; unfold extHolds; rewrite Ee; simpl;
      repeat split; auto using extends_refl.
Qed.

(** Everything one call of [Play] does, phase by phase. *)
Lemma Play_spec c w env url :
  wf c = true ->
  exists c1 w1 c' w' r,
    playStop c w url = Some (c1, w1)
    /\ Play c w env url = Some (c', w', r)
    /\ releases w w1 /\ extends w1 w'
    /\ IsPlaying c1 = Some false
    /\ (exclusive c = true -> idle c1 = true)
    /\ wf c' = true /\ lastURL c' = url
    /\ (exclusive c = true -> exclusive c' = true)
    /\ match r with
       | None => exists b, active c' = Some b /\ backendIsPlaying b c' = Some true
       | Some _ =>
           active c' = active c /\ IsPlaying c' = Some false
           /\ (exclusive c = true -> idle c' = true)
       end.
Proof.
  intros Hwf.
  destruct (playStop_spec c w url Hwf)
    as (c1 & w1 & Es & A1 & A2 & A3 & A4 & A5 & A6 & A7 & A8 & A9).
  destruct (playGo_spec c1 w1 env url)
    as (c2 & w2 & res & Eg & B1 & B2 & B3 & B4 & B5).
  exists c1, w1. unfold Play. rewrite Es, Eg.
  destruct res as [u|errGo].
  - (* the Go backend plays *)
    destruct B5 as (C1 & C2 & C3 & C4).
    exists c2, w2, None. repeat split; auto; try congruence.
    + unfold wf. rewrite C1. unfold goHolds in C2. destruct (gp c2); [auto|discriminate].
    + intros Hx. apply A5 in Hx. unfold idle in Hx. apply andb_true_iff in Hx.
      destruct Hx as [_ Hx]. unfold exclusive, extHolds in *. rewrite C1, C2, B1.
      simpl. destruct (ext c1); simpl in *; auto. now rewrite Hx.
    + exists TheGo. auto.
  - destruct B5 as (C1 & C2 & C3 & C4 & C5).
    destruct (playExt_spec c2 w2 env url errGo)
      as (c3 & w3 & r & Ee & D1 & D2 & D3 & D4 & D5).
    rewrite Ee. exists c3, w3, r.
    assert (exclusive c = true -> goHolds c3 = false) as G.
    { intros Hx. apply A5 in Hx. unfold idle in Hx. apply andb_true_iff in Hx.
      destruct Hx as [Hx _]. apply negb_true_iff in Hx. apply C2 in Hx.
      unfold goHolds in *. now rewrite D1. }
    repeat split; auto; try congruence.
    + eapply extends_trans; eauto.
    + (* well formed *)
      unfold wf in *. destruct r.
      * destruct D5 as (E1 & _ & _ & E4). rewrite E1, C1. rewrite D1.
        destruct (active c1) as [[|]|]; auto.
        -- destruct (gp c1); [|discriminate].
           destruct (gp c2); auto. destruct C4 as [_ C4].
           specialize (C4 eq_refl). discriminate.
        -- rewrite <- B1 in A3. destruct (ext c2); [|discriminate].
           destruct (ext c3); auto. destruct E4 as [_ E4].
           specialize (E4 eq_refl). discriminate.
      * destruct D5 as (E1 & E2 & _). rewrite E1. unfold extHolds in E2.
        destruct (ext c3); [auto|discriminate].
    + (* only the active backend owns resources *)
      intros Hx. pose proof (G Hx) as Hg. destruct r.
      * destruct D5 as (_ & E2 & _). apply idle_exclusive. unfold idle.
        rewrite Hg. simpl. apply negb_true_iff. apply E2.
        apply A5 in Hx. unfold idle in Hx. apply andb_true_iff in Hx.
        destruct Hx as [_ Hx]. apply negb_true_iff in Hx.
        unfold extHolds in *. now rewrite B1.
      * destruct D5 as (E1 & E2 & _). unfold exclusive. now rewrite Hg, E1, E2.
    + destruct r.
      * destruct D5 as (E1 & E2 & E3 & E4). repeat split.
        -- congruence.
        -- unfold IsPlaying in *. rewrite E1, C1.
           destruct (active c1) as [[|]|]; auto.
           ++ apply C3 in A4. unfold backendIsPlaying in *. now rewrite D1.
           ++ apply E3. unfold backendIsPlaying in *. now rewrite B1.
        -- intros Hx. unfold idle. rewrite (G Hx). simpl. apply negb_true_iff.
           apply E2. apply A5 in Hx. unfold idle in Hx. apply andb_true_iff in Hx.
           destruct Hx as [_ Hx]. apply negb_true_iff in Hx.
           unfold extHolds in *. now rewrite B1.
      * exists TheExt. destruct D5 as (E1 & _ & E3 & _). auto.
Qed.

(** C1.  [Play] on a non-empty url tries the pure Go backend first and, when
    it plays, leaves the external player alone.  When it fails and there is
    an external player, that one is tried (the Go backend was: it recorded
    the url) and its success is the result.  When both fail the error is
    "go-audio: <cause>, external: <cause>"; when only the Go backend exists
    and fails the error says that the format is not supported in pure Go and
    asks to install mpv or ffplay; with no backend at all the error is the
    fixed "no audio backend available" text.  Whenever [Play] returns nil the
    backend that played is the active one and is playing. *)
Theorem Play_fallback_policy c w env url :
  wf c = true -> url <> "" ->
  exists c' w' r,
    Play c w env url = Some (c', w', r)
    /\ match gp c, ext c with
       | Some g, Some p =>
           match snd (GoAudio.Play g w (goEnv env) url),
                 snd (Mpv.Play p w (extEnv env) url) with
           | None, _ =>
               r = None /\ active c' = Some TheGo
               /\ option_map Mpv.lastURL (ext c') = Some (Mpv.lastURL p)
           | Some eg, None =>
               r = None /\ active c' = Some TheExt
               /\ option_map GoAudio.lastURL (gp c') = Some url
           | Some eg, Some ee =>
               r = Some ("go-audio: " ++ eg ++ ", external: " ++ ee)
               /\ active c' = active c
               /\ option_map GoAudio.lastURL (gp c') = Some url
           end
       | Some g, None =>
           match snd (GoAudio.Play g w (goEnv env) url) with
           | None => r = None /\ active c' = Some TheGo
           | Some eg => r = Some (errUnsupported eg) /\ active c' = active c
           end
       | None, Some p =>
           match snd (Mpv.Play p w (extEnv env) url) with
           | None => r = None /\ active c' = Some TheExt
           | Some ee => r = Some ee /\ active c' = active c
           end
       | None, None => r = Some errNoBackend /\ active c' = active c
       end
    /\ (r = None -> IsPlaying c' = Some true).
Proof.
  intros Hwf Hurl.
  destruct (playStop_spec c w url Hwf)
    as (c1 & w1 & Es & A1 & A2 & A3 & A4 & A5 & A6 & A7s & A8 & A9).
  destruct A7s as [A7 A7'].
  destruct (playGo_spec c1 w1 env url)
    as (c2 & w2 & res & Eg & B1 & B2 & B3 & B4 & B5).
  unfold Play. rewrite Es, Eg.
  (* the Go attempt fails on the stopped player as it does on the given one *)
  assert (res = match gp c with
                | None => inr None
                | Some g =>
                    match snd (GoAudio.Play g w (goEnv env) url) with
                    | None => inl tt
                    | Some e => inr (Some e)
                    end
                end) as Hres.
  { rewrite B4. destruct (gp c) as [g|], (gp c1) as [g1|]; simpl in A7;
      try discriminate; auto.
    inversion A7 as [Hi].
    now rewrite (go_Play_error_indep g1 g w1 w (goEnv env) url Hi). }
  destruct res as [u|errGo].
  - destruct B5 as (C1 & C2 & C3 & C4).
    exists c2, w2, None. split; [reflexivity|]. split.
    + destruct (gp c) as [g|]; [|discriminate].
      destruct (snd (GoAudio.Play g w (goEnv env) url)); [discriminate|].
      destruct (ext c) as [p|] eqn:Ep; auto.
      repeat split; auto. rewrite B1, A8. reflexivity.
    + intros _. unfold IsPlaying. now rewrite C1.
  - destruct B5 as (C1 & C2 & C3 & C4 & C5).
    destruct (playExt_spec c2 w2 env url errGo)
      as (c3 & w3 & r & Ee & D1 & D2 & D3 & D4 & D5).
    rewrite Ee. exists c3, w3, r. split; [reflexivity|].
    assert (r = match ext c with
                | Some p =>
                    match snd (Mpv.Play p w (extEnv env) url), errGo with
                    | None, _ => None
                    | Some e, Some eg => Some ("go-audio: " ++ eg ++ ", external: " ++ e)
                    | Some e, None => Some e
                    end
                | None =>
                    match errGo with
                    | Some eg => Some (errUnsupported eg)
                    | None => Some errNoBackend
                    end
                end) as Hr.
    { rewrite D4, B1. destruct (ext c) as [p|], (ext c1) as [p1|]; simpl in A7';
        try discriminate; auto.
      inversion A7' as [Hb].
      now rewrite (ext_Play_error_indep p1 p w2 w (extEnv env) url Hb). }
    clear D4.
    assert (gp c <> None -> option_map GoAudio.lastURL (gp c3) = Some url) as Hl.
    { intros Hg. rewrite D1. apply C5; auto.
      destruct (gp c), (gp c1); simpl in A7; try discriminate; congruence. }
    split.
    + destruct (gp c) as [g|] eqn:Eg0.
      * destruct (snd (GoAudio.Play g w (goEnv env) url)) as [eg|]; [|discriminate].
        inversion Hres; subst errGo.
        destruct (ext c) as [p|].
        -- destruct (snd (Mpv.Play p w (extEnv env) url)) as [ee|]; subst r.
           ++ cbn beta iota in D5; destruct D5 as (E1 & _). repeat split; try congruence.
              apply Hl. discriminate.
           ++ cbn beta iota in D5; destruct D5 as (E1 & _). repeat split; auto. apply Hl. discriminate.
        -- subst r. cbn beta iota in D5; destruct D5 as (E1 & _). split; congruence.
      * inversion Hres; subst errGo.
        destruct (ext c) as [p|].
        -- destruct (snd (Mpv.Play p w (extEnv env) url)) as [ee|]; subst r;
             cbn beta iota in D5; destruct D5 as (E1 & _); split; congruence.
        -- subst r. cbn beta iota in D5; destruct D5 as (E1 & _). split; congruence.
    + intros ->. destruct D5 as (E1 & _ & E3 & _). unfold IsPlaying. now rewrite E1.
Qed.

Lemma Play_fallback_policy_witness :
  exists c' w',
    Play Scenarios.both world0 Scenarios.envBad Scenarios.urlB
    = Some (c', w',
            Some "go-audio: mp3 decode: mp3: invalid header, external: fork/exec /usr/bin/mpv: no such file or directory")
    /\ active c' = None.
Proof.
  destruct (@Play_fallback_policy Scenarios.both world0 Scenarios.envBad Scenarios.urlB
              eq_refl ltac:(discriminate))
    as (c' & w' & r & H & T & _).
  simpl in T. destruct T as (-> & Ha & _). exists c', w'. split; assumption.
Defined.

(** C3.  After [Play url], whether it played or failed, [LastURL] is [url];
    so after two calls in a row it is the url of the second, whatever the
    second call returned. *)
Theorem Play_records_lastURL c w envA urlA envB urlB :
  wf c = true ->
  exists c1 w1 r1 c2 w2 r2,
    Play c w envA urlA = Some (c1, w1, r1) /\ LastURL c1 = urlA
    /\ Play c1 w1 envB urlB = Some (c2, w2, r2) /\ LastURL c2 = urlB.
Proof.
  intros Hwf.
  destruct (Play_spec c w envA urlA Hwf)
    as (_ & _ & c1 & w1 & r1 & _ & E1 & _ & _ & _ & _ & Hwf1 & L1 & _).
  destruct (Play_spec c1 w1 envB urlB Hwf1)
    as (_ & _ & c2 & w2 & r2 & _ & E2 & _ & _ & _ & _ & _ & L2 & _).
  exists c1, w1, r1, c2, w2, r2. auto.
Qed.

Lemma Play_records_lastURL_witness :
  exists c1 w1 c2 w2 e,
    Play Scenarios.both world0 Scenarios.envGood Scenarios.urlA = Some (c1, w1, None)
    /\ Play c1 w1 Scenarios.envBad Scenarios.urlB = Some (c2, w2, Some e)
    /\ LastURL c2 = Scenarios.urlB.
Proof.
  destruct (@Play_records_lastURL Scenarios.both world0 Scenarios.envGood Scenarios.urlA
              Scenarios.envBad Scenarios.urlB eq_refl)
    as (c1 & w1 & r1 & c2 & w2 & r2 & E1 & _ & E2 & L2).
  vm_compute in E1. inversion E1; subst c1 w1 r1; clear E1.
  vm_compute in E2. inversion E2; subst c2 w2 r2; clear E2.
  do 5 eexists. repeat split.
Defined.

(** C10.  A [Play] that fails stops what was playing: the active backend is
    stopped before anything is tried, and after a call that returned an
    error [IsPlaying] is false (and, when only the active backend owned
    resources, none is owned any more). *)
Theorem failed_Play_leaves_nothing_playing c w env url :
  wf c = true -> IsPlaying c = Some true ->
  exists c1 w1 c' w' r,
    playStop c w url = Some (c1, w1) /\ IsPlaying c1 = Some false
    /\ Play c w env url = Some (c', w', r)
    /\ (r <> None ->
        IsPlaying c' = Some false /\ (exclusive c = true -> idle c' = true)).
Proof.
  intros Hwf _.
  destruct (Play_spec c w env url Hwf)
    as (c1 & w1 & c' & w' & r & Es & Ep & _ & _ & I1 & _ & _ & _ & _ & T).
  exists c1, w1, c', w', r. repeat split; auto;
    destruct r; try contradiction; destruct T as (_ & T1 & T2); auto.
Qed.

Lemma failed_Play_leaves_nothing_playing_witness :
  IsPlaying (fst Scenarios.goPlaying) = Some true
  /\ exists c' w' e,
       Play (fst Scenarios.goPlaying) (snd Scenarios.goPlaying) Scenarios.env404
            Scenarios.urlB = Some (c', w', Some e)
       /\ IsPlaying c' = Some false /\ idle c' = true.
Proof.
  split; [reflexivity|].
  destruct (@failed_Play_leaves_nothing_playing (fst Scenarios.goPlaying)
              (snd Scenarios.goPlaying) Scenarios.env404 Scenarios.urlB eq_refl eq_refl)
    as (c1 & w1 & c' & w' & r & _ & _ & Ep & T).
  vm_compute in Ep. inversion Ep; subst c' w' r; clear Ep.
  do 3 eexists. split; [reflexivity|].
  destruct T as [T1 T2]; [discriminate|]. split; [exact T1|exact (T2 eq_refl)].
Defined.

Lemma Stop_spec c w :
  wf c = true ->
  exists c1 w1,
    Stop c w = Some (c1, w1, None)
    /\ wf c1 = true
    /\ IsPlaying c1 = Some false
    /\ Stop c1 w1 = Some (c1, w1, None)
    /\ active c1 = active c /\ lastURL c1 = lastURL c
    /\ (exclusive c = true -> idle c1 = true).
Proof.
  intros Hwf. unfold Stop.
  destruct (active c) as [b|] eqn:Ea.
  - destruct (backendStop_spec c w Ea Hwf)
      as (c1 & w1 & Es & A1 & A2 & A3 & A4 & A5 & _).
    exists c1, w1. rewrite A1, Ea. unfold IsPlaying. rewrite A1, Ea.
    repeat split; auto.
    (* the second stop finds nothing to release *)
    clear - Es Ea Hwf. unfold wf in Hwf. rewrite Ea in Hwf.
    destruct c as [g e a l]. simpl in *. subst a.
    destruct b; simpl in *.
    + destruct g as [g|]; [|discriminate]. destruct g as [s ct r lu pl ini].
      unfold GoAudio.Stop, GoAudio.stopLocked, GoAudio.cleanupLocked in Es. simpl in Es.
      destruct ct; inversion Es; subst; reflexivity.
    + destruct e as [p|]; [|discriminate]. destruct p as [cm bk pa lu].
      unfold Mpv.Stop, Mpv.stopLocked in Es. simpl in Es.
      destruct cm; inversion Es; subst; reflexivity.
  - exists c, w. unfold IsPlaying. rewrite Ea. repeat split; auto.
    unfold exclusive, idle. rewrite Ea. now rewrite !orb_false_r.
Qed.




(** C9, as the code has it.  A [Play] that returns nil sets [active] to the
    backend that now plays; a [Play] that returns an error leaves [active]
    as it was.  [Stop] never assigns [active]: it stops the backend [active]
    points at, and the field keeps its value. *)
Theorem active_set_by_Play_only c w env url :
  wf c = true ->
  (exists c' w' r,
      Play c w env url = Some (c', w', r)
      /\ match r with
         | None => exists b, active c' = Some b /\ backendIsPlaying b c' = Some true
         | Some _ => active c' = active c
         end)
  /\ (exists c' w',
        Stop c w = Some (c', w', None)
        /\ active c' = active c /\ IsPlaying c' = Some false).
Proof.
  intros Hwf. split.
  - destruct (Play_spec c w env url Hwf)
      as (_ & _ & c' & w' & r & _ & Ep & _ & _ & _ & _ & _ & _ & _ & T).
    exists c', w', r. split; auto. destruct r; [apply T|exact T].
  - destruct (Stop_spec c w Hwf) as (c1 & w1 & A1 & _ & A3 & _ & A5 & _).
    exists c1, w1. auto.
Qed.

Lemma active_set_by_Play_only_witness :
  (exists c' w',
      Play Scenarios.both world0 Scenarios.envAac Scenarios.urlB = Some (c', w', None)
      /\ active c' = Some TheExt)
  /\ (exists c' w',
        Stop (fst Scenarios.extPlaying) (snd Scenarios.extPlaying) = Some (c', w', None)
        /\ active c' = Some TheExt).
Proof.
  destruct (@active_set_by_Play_only Scenarios.both world0 Scenarios.envAac Scenarios.urlB
              eq_refl) as [(c1 & w1 & r & E1 & T) _].
  destruct (@active_set_by_Play_only (fst Scenarios.extPlaying) (snd Scenarios.extPlaying)
              Scenarios.envAac Scenarios.urlB eq_refl) as [_ (c2 & w2 & E2 & A & _)].
  split.
  - vm_compute in E1. inversion E1; subst c1 w1 r. do 2 eexists. split; reflexivity.
  - exists c2, w2. split; [exact E2|]. rewrite A. reflexivity.
Defined.

(** C9 as the spec words it fails for [Stop]: the composite that plays on the
    Go backend has [active] set to it, and still has after [Stop]. *)
Lemma Stop_keeps_active :
  exists c' w',
    Stop (fst Scenarios.goPlaying) (snd Scenarios.goPlaying) = Some (c', w', None)
    /\ active (fst Scenarios.goPlaying) = Some TheGo
    /\ active c' = Some TheGo
    /\ IsPlaying (fst Scenarios.goPlaying) = Some true
    /\ IsPlaying c' = Some false.
Proof.
  do 2 eexists. split; [vm_compute; reflexivity|]. repeat split.
Qed.

(** What [New] builds is a start for the callers: no backend is active,
    nothing is owned, nothing was played.  The Go backend always exists, so
    [New] never fails. *)
Lemma New_spec os :
  exists c,
    New os = (Some c, None)
    /\ gp c = Some GoAudio.NewGoPlayer
    /\ ext c = fst (fst (Mpv.newExternal os))
    /\ active c = None /\ LastURL c = ""
    /\ wf c = true /\ idle c = true /\ exclusive c = true
    /\ IsPlaying c = Some false.
Proof.
  unfold New. simpl.
  pose proof (MpvFacts.newExternal_idle os) as Hn.
  destruct (Mpv.newExternal os) as [[e err] log]. simpl in *.
  eexists. split; [reflexivity|]. unfold idle, exclusive, goHolds, extHolds. simpl.
  destruct e as [p|]; [rewrite (Hn p eq_refl)|]; repeat split.
Qed.

(** No external player and a stream that is not MP3: the error names the
    decode failure and asks for mpv or ffplay. *)
Example Play_without_external_player :
  option_map snd (Play Scenarios.goOnly world0 Scenarios.envBad Scenarios.urlB)
  = Some (Some "format not supported in pure Go; please install mpv or ffplay to listen (error: mp3 decode: mp3: invalid header)").
Proof. reflexivity. Qed.

Example Play_on_a_404 :
  option_map snd (Play Scenarios.none world0 Scenarios.env404 Scenarios.urlA)
  = Some (Some errNoBackend)
  /\ option_map snd (Play Scenarios.goOnly world0 Scenarios.env404 Scenarios.urlA)
     = Some (Some (errUnsupported "stream HTTP 404")).
Proof. split; reflexivity. Qed.

(** Switching from the Go backend to mpv: the stream is paused and closed
    before the new attempts open anything. *)
Example switch_releases_first :
  effects (snd (Scenarios.after Scenarios.bothGoPlaying Scenarios.envAac Scenarios.urlB))
  = [SpeakerInit; HttpGet Scenarios.urlA 0; SpeakerPlay 2;
     CtrlPause 2; StreamerClose 1; BodyClose 0;
     HttpGet Scenarios.urlB 3; BodyClose 3;
     ProcStart "/usr/bin/mpv" ["--no-video"; "--quiet"; Scenarios.urlB] 5].
Proof. reflexivity. Qed.

(** The phases of [Play] one by one, as the interleaved callers run them. *)
Lemma playStop_phase c w url c1 w1 :
  wf c = true -> exclusive c = true ->
  playStop c w url = Some (c1, w1) ->
  wf c1 = true /\ idle c1 = true /\ releases w w1.
Proof.
  intros Hwf Hx E.
  destruct (playStop_spec c w url Hwf) as (c1' & w1' & Es & _ & _ & A3 & _ & A5 & A6 & _).
  rewrite Es in E. inv_pairs. auto.
Qed.

Lemma playGo_phase c w env url c2 w2 res :
  wf c = true -> idle c = true ->
  playGo c w env url = (c2, w2, res) ->
  wf c2 = true
  /\ match res with inl _ => exclusive c2 = true | inr _ => idle c2 = true end.
Proof.
  intros Hwf Hi E.
  destruct (playGo_spec c w env url) as (c2' & w2' & res' & Eg & B1 & _ & _ & _ & B5).
  rewrite Eg in E. inv_pairs.
  unfold idle in Hi. apply andb_true_iff in Hi. destruct Hi as [Hg He].
  apply negb_true_iff in Hg, He.
  assert (extHolds c2 = false) as He2 by (unfold extHolds in *; now rewrite B1).
  destruct res as [u|e].
  - destruct B5 as (C1 & C2 & _). split.
    + unfold wf. rewrite C1. unfold goHolds in C2. destruct (gp c2); [auto|discriminate].
    + unfold exclusive. now rewrite C1, C2, He2.
  - destruct B5 as (C1 & C2 & _ & C4 & _). split.
    + unfold wf in *. rewrite C1, B1. destruct (active c) as [[|]|]; auto.
      destruct (gp c); [|discriminate]. destruct (gp c2); auto.
      destruct C4 as [_ C4]. specialize (C4 eq_refl). discriminate.
    + unfold idle. now rewrite (C2 Hg), He2.
Qed.

Lemma playExt_phase c w env url errGo c3 w3 r :
  wf c = true -> idle c = true ->
  playExt c w env url errGo = (c3, w3, r) ->
  wf c3 = true /\ exclusive c3 = true.
Proof.
  intros Hwf Hi E.
  destruct (playExt_spec c w env url errGo) as (c3' & w3' & r' & Ee & D1 & _ & _ & _ & D5).
  rewrite Ee in E. inv_pairs.
  unfold idle in Hi. apply andb_true_iff in Hi. destruct Hi as [Hg He].
  apply negb_true_iff in Hg, He.
  assert (goHolds c3 = false) as Hg3 by (unfold goHolds in *; now rewrite D1).
  destruct r as [e|].
  - destruct D5 as (E1 & E2 & _ & E4). split.
    + unfold wf in *. rewrite E1, D1. destruct (active c) as [[|]|]; auto.
      destruct (ext c); [|discriminate]. destruct (ext c3); auto.
      destruct E4 as [_ E4]. specialize (E4 eq_refl). discriminate.
    + apply idle_exclusive. unfold idle. now rewrite Hg3, (E2 He).
  - destruct D5 as (E1 & E2 & _). split.
    + unfold wf. rewrite E1. unfold extHolds in E2. destruct (ext c3); [auto|discriminate].
    + unfold exclusive. now rewrite Hg3, E1, E2.
Qed.

Lemma Stop_phase c w c1 w1 r :
  wf c = true -> exclusive c = true ->
  Stop c w = Some (c1, w1, r) ->
  wf c1 = true /\ exclusive c1 = true.
Proof.
  intros Hwf Hx E.
  destruct (Stop_spec c w Hwf) as (c1' & w1' & Es & A2 & _ & _ & _ & _ & A7).
  rewrite Es in E. inv_pairs. split; auto using idle_exclusive.
Qed.

(** The two callbacks only give resources back. *)
Lemma streamEnded_phase c w h g g' w' :
  gp c = Some g -> GoAudio.streamEnded h g w = (g', w') ->
  (wf c = true -> wf (setGp g' c) = true)
  /\ (exclusive c = true -> exclusive (setGp g' c) = true)
  /\ (idle c = true -> idle (setGp g' c) = true).
Proof.
  intros Eg E.
  pose proof (GoAudioFacts.streamEnded_holds h g w) as Hh. rewrite E in Hh. simpl in Hh.
  assert (goHolds (setGp g' c) = true -> goHolds c = true) as K
      by (unfold goHolds; simpl; now rewrite Eg).
  assert (extHolds (setGp g' c) = extHolds c) as K2 by reflexivity.
  split; [|split].
  - unfold wf. simpl. rewrite Eg. destruct (active c) as [[|]|]; auto.
  - unfold exclusive. rewrite K2. simpl active.
    destruct (goHolds (setGp g' c)); [rewrite (K eq_refl)|]; auto.
    simpl. intros H. apply andb_true_iff in H. apply H.
  - unfold idle. rewrite K2.
    destruct (goHolds (setGp g' c)); [rewrite (K eq_refl)|]; auto.
    simpl. intros H. apply andb_true_iff in H. apply H.
Qed.

Lemma waitReturned_phase c h p :
  ext c = Some p ->
  (wf c = true -> wf (setExt (Mpv.waitReturned h p) c) = true)
  /\ (exclusive c = true -> exclusive (setExt (Mpv.waitReturned h p) c) = true)
  /\ (idle c = true -> idle (setExt (Mpv.waitReturned h p) c) = true).
Proof.
  intros Ee.
  pose proof (MpvFacts.waitReturned_holds h p) as Hh.
  assert (extHolds (setExt (Mpv.waitReturned h p) c) = true -> extHolds c = true) as K
      by (unfold extHolds; simpl; now rewrite Ee).
  assert (goHolds (setExt (Mpv.waitReturned h p) c) = goHolds c) as K2 by reflexivity.
  split; [|split].
  - unfold wf. simpl. rewrite Ee. destruct (active c) as [[|]|]; auto.
  - unfold exclusive. rewrite K2. simpl active.
    destruct (extHolds (setExt (Mpv.waitReturned h p) c)); [rewrite (K eq_refl)|]; auto.
    simpl. intros H. apply andb_true_iff in H. rewrite andb_true_r. apply H.
  - unfold idle. rewrite K2.
    destruct (extHolds (setExt (Mpv.waitReturned h p) c)); [rewrite (K eq_refl)|]; auto.
    simpl. intros H. apply andb_true_iff in H. rewrite andb_true_r. apply H.
Qed.

End CompositeFacts.

(** ** One mutex, one caller inside *)

Module ThreadsFacts.

Import Composite Threads.

Lemma critCount_app l1 l2 : critCount (l1 ++ l2) = critCount l1 + critCount l2.
Proof. unfold critCount. now rewrite filter_app, length_app. Qed.

Lemma critCount_cons pc l :
  critCount (pc :: l) = (if inCritical pc then 1 else 0) + critCount l.
Proof. unfold critCount. simpl. destruct (inCritical pc); reflexivity. Qed.

Lemma critCount_mid l1 pc l2 :
  critCount (l1 ++ pc :: l2)
  = critCount l1 + (if inCritical pc then 1 else 0) + critCount l2.
Proof. rewrite critCount_app, critCount_cons. lia. Qed.

Lemma critCount_member pc l :
  In pc l -> inCritical pc = true -> 1 <= critCount l.
Proof.
  induction l as [|a l IH]; simpl; [tauto|].
  intros [->|Hin] Hc; rewrite critCount_cons.
  - rewrite Hc. lia.
  - specialize (IH Hin Hc). lia.
Qed.

Lemma critCount_entry l : forallb atEntry l = true -> critCount l = 0.
Proof.
  induction l as [|a l IH]; simpl; [reflexivity|].
  intros H. apply andb_true_iff in H. destruct H as [Ha Hl].
  rewrite critCount_cons, (IH Hl). destruct a; simpl in *; congruence.
Qed.

Lemma Inv_initial s : initial s -> Inv s.
Proof.
  intros (Hmu & Hent & Hwf & Hx). pose proof (critCount_entry _ Hent) as Hc.
  unfold Inv. rewrite Hmu, Hc. repeat split; auto.
  intros pc Hin Hcr. pose proof (critCount_member _ _ Hin Hcr). lia.
Qed.

(** A caller inside moves one statement on, still inside. *)
Lemma Inv_inside c w c' w' m l1 pc pc' l2 :
  inCritical pc = true -> inCritical pc' = true ->
  Inv (mkSys c w m (l1 ++ pc :: l2)) ->
  (wf c = true -> phaseOk c pc = true -> wf c' = true /\ phaseOk c' pc' = true) ->
  Inv (mkSys c' w' m (l1 ++ pc' :: l2)).
Proof.
  intros Hc Hc' (Hwf & Hcnt & Hph & Hz) Hstep. simpl in *.
  rewrite critCount_mid, Hc in Hcnt.
  assert (critCount l1 = 0 /\ critCount l2 = 0 /\ m = true) as (Z1 & Z2 & ->)
      by (destruct m; lia).
  destruct (Hstep Hwf) as [Hwf' Hph'].
  { apply Hph; auto. apply in_or_app. right. left. reflexivity. }
  unfold Inv. simpl. rewrite critCount_mid, Hc', Z1, Z2.
  repeat split; auto; try (simpl; discriminate).
  intros q Hin Hq. apply in_app_or in Hin. destruct Hin as [Hin|[<-|Hin]]; auto.
  - pose proof (critCount_member _ _ Hin Hq). lia.
  - pose proof (critCount_member _ _ Hin Hq). lia.
Qed.

(** A caller takes the free mutex. *)
Lemma Inv_lock c w l1 pc pc' l2 :
  inCritical pc = false -> inCritical pc' = true ->
  (exclusive c = true -> phaseOk c pc' = true) ->
  Inv (mkSys c w false (l1 ++ pc :: l2)) ->
  Inv (mkSys c w true (l1 ++ pc' :: l2)).
Proof.
  intros Hc Hc' Hph' (Hwf & Hcnt & Hph & Hz). simpl in *.
  rewrite critCount_mid, Hc in *.
  assert (critCount l1 = 0 /\ critCount l2 = 0) as (Z1 & Z2) by lia.
  unfold Inv. simpl. rewrite critCount_mid, Hc', Z1, Z2.
  repeat split; auto; try (simpl; discriminate).
  intros q Hin Hq. apply in_app_or in Hin. destruct Hin as [Hin|[<-|Hin]].
  - pose proof (critCount_member _ _ Hin Hq). lia.
  - apply Hph'. apply Hz. lia.
  - pose proof (critCount_member _ _ Hin Hq). lia.
Qed.

(** The callbacks change the composite under every caller. *)
Lemma Inv_callback c c' w w' m ts :
  (wf c = true -> wf c' = true) ->
  (exclusive c = true -> exclusive c' = true) ->
  (idle c = true -> idle c' = true) ->
  Inv (mkSys c w m ts) -> Inv (mkSys c' w' m ts).
Proof.
  intros Kw Kx Ki (Hwf & Hcnt & Hph & Hz). unfold Inv. simpl in *.
  repeat split; auto.
  intros q Hin Hq. specialize (Hph q Hin Hq). destruct q; simpl in *; auto.
Qed.

Lemma Inv_step s s' : Inv s -> step s s' -> Inv s'.
Proof.
  intros HI Hs. destruct Hs.
  - (* a new call *)
    destruct HI as (Hwf & Hcnt & Hph & Hz). unfold Inv. simpl in *.
    assert (inCritical pc = false) as Hn by (destruct pc; simpl in *; congruence).
    rewrite critCount_app, critCount_cons, Hn. simpl. rewrite !Nat.add_0_r.
    repeat split; auto.
    intros q Hin Hq. apply in_app_or in Hin. destruct Hin as [Hin|[Heq|[]]]; auto.
    subst q. rewrite Hn in Hq. discriminate.
  - apply Inv_lock with (pc := PlayLock url); auto.
  - apply Inv_inside with (c := c) (w := w) (pc := PlayStop url); auto. simpl. intros Hwf Hx.
    destruct (CompositeFacts.playStop_phase _ _ _ Hwf Hx H) as (A & B & _). auto.
  - apply Inv_inside with (c := c) (w := w) (pc := PlayGo url); auto. simpl. intros Hwf Hx.
    destruct (CompositeFacts.playGo_phase _ _ _ _ Hwf Hx H) as (A & B). auto.
  - apply Inv_inside with (c := c) (w := w) (pc := PlayGo url); auto. simpl. intros Hwf Hx.
    destruct (CompositeFacts.playGo_phase _ _ _ _ Hwf Hx H) as (A & B). auto.
  - apply Inv_inside with (c := c) (w := w) (pc := PlayExt url errGo); auto. simpl. intros Hwf Hx.
    destruct (CompositeFacts.playExt_phase _ _ _ _ _ Hwf Hx H) as (A & B). auto.
  - apply Inv_lock with (pc := StopLock); auto.
  - apply Inv_inside with (c := c) (w := w) (pc := StopBody); auto. simpl. intros Hwf Hx.
    destruct (CompositeFacts.Stop_phase _ _ Hwf Hx H) as (A & B). auto.
  - (* unlock *)
    destruct HI as (Hwf & Hcnt & Hph & Hz). simpl in *.
    rewrite critCount_mid in Hcnt. simpl in Hcnt.
    assert (critCount l1 = 0 /\ critCount l2 = 0) as (Z1 & Z2) by lia.
    unfold Inv. simpl. rewrite critCount_mid, Z1, Z2. simpl. repeat split; auto.
    + intros q Hin Hq. apply in_app_or in Hin. destruct Hin as [Hin|[<-|Hin]].
      * pose proof (critCount_member _ _ Hin Hq). lia.
      * discriminate.
      * pose proof (critCount_member _ _ Hin Hq). lia.
    + intros _. apply (Hph (Unlock r)); auto. apply in_or_app. right. left. reflexivity.
  - destruct (CompositeFacts.streamEnded_phase c w h H H0) as (A & B & C).
    eapply Inv_callback; eauto.
  - destruct (CompositeFacts.waitReturned_phase c h H) as (A & B & C).
    eapply Inv_callback; eauto.
Qed.

Lemma Inv_steps s s' : steps s s' -> Inv s -> Inv s'.
Proof. induction 1; eauto using Inv_step. Qed.

Lemma Inv_reachable s : reachable s -> Inv s.
Proof. intros (s0 & Hi & Hs). eauto using Inv_steps, Inv_initial. Qed.

(** At most one backend owns playback resources under the invariant. *)
Lemma Inv_one_holder s : Inv s -> goHolds (comp s) && extHolds (comp s) = false.
Proof.
  intros (Hwf & Hcnt & Hph & Hz).
  destruct (critCount (threads s)) as [|n] eqn:Ec.
  - apply CompositeFacts.exclusive_one_holder. auto.
  - assert (exists pc, In pc (threads s) /\ inCritical pc = true) as (pc & Hin & Hc).
    { unfold critCount in Ec. destruct (filter inCritical (threads s)) as [|pc l] eqn:Ef;
        [discriminate|].
      exists pc. apply filter_In. rewrite Ef. left. reflexivity. }
    specialize (Hph pc Hin Hc). apply CompositeFacts.exclusive_one_holder.
    destruct pc; simpl in Hph; auto using CompositeFacts.idle_exclusive.
Qed.

(** A caller that runs alone from [Lock] to [Unlock] does what the function
    [Play] computes. *)
Lemma Play_as_steps c w env url c' w' r l1 l2 :
  Play c w env url = Some (c', w', r) ->
  steps (mkSys c w false (l1 ++ PlayLock url :: l2))
        (mkSys c' w' false (l1 ++ Returned r :: l2)).
Proof.
  unfold Play. intros H.
  destruct (playStop c w url) as [[c1 w1]|] eqn:Es; [|discriminate].
  destruct (playGo c1 w1 env url) as [[c2 w2] [u|errGo]] eqn:Eg.
  - inv_pairs.
    eapply steps_step; [|apply step_unlock].
    eapply steps_step; [|eapply step_play_go_ok; exact Eg].
    eapply steps_step; [|eapply step_play_stop; exact Es].
    eapply steps_step; [apply steps_refl|apply step_play_lock].
  - inversion H as [He]. clear H.
    eapply steps_step; [|apply step_unlock].
    eapply steps_step; [|eapply step_play_ext; exact He].
    eapply steps_step; [|eapply step_play_go_err; exact Eg].
    eapply steps_step; [|eapply step_play_stop; exact Es].
    eapply steps_step; [apply steps_refl|apply step_play_lock].
Qed.

(** C2.  However the callers of [Play] and [Stop], the end-of-stream
    callback and the process watcher interleave: at most one caller is
    between [c.mu.Lock] and [c.mu.Unlock]; at most one of the two backends
    owns playback resources; and while a [Play] is between its stop and the
    return of a start, neither does.  A [Play] that enters with the mutex
    free first releases what the active backend owns (its effects up to
    there are releases only, and nothing is owned then), and only then makes
    the attempts, after which only the active backend owns resources. *)
Theorem one_backend_at_a_time s0 s :
  initial s0 -> steps s0 s ->
  critCount (threads s) <= 1
  /\ goHolds (comp s) && extHolds (comp s) = false
  /\ (forall pc, In pc (threads s) ->
        (exists url, pc = PlayGo url) \/ (exists url e, pc = PlayExt url e) ->
        idle (comp s) = true)
  /\ (mu s = false ->
      forall env url,
      exists c1 w1 c' w' r,
        playStop (comp s) (world s) url = Some (c1, w1)
        /\ releases (world s) w1 /\ idle c1 = true
        /\ Play (comp s) (world s) env url = Some (c', w', r)
        /\ extends w1 w'
        /\ exclusive c' = true
        /\ goHolds c' && extHolds c' = false).
Proof.
  intros Hi Hs.
  assert (Inv s) as HI by (eapply Inv_steps; eauto using Inv_initial).
  pose proof (Inv_one_holder HI) as H1.
  destruct HI as (Hwf & Hcnt & Hph & Hz).
  repeat split; auto.
  - destruct (mu s); lia.
  - intros pc Hin Hpc. apply (Hph pc) in Hin.
    + destruct Hpc as [(url & ->)|(url & e & ->)]; exact Hin.
    + destruct Hpc as [(url & ->)|(url & e & ->)]; reflexivity.
  - intros Hmu env url. rewrite Hmu in Hcnt. specialize (Hz Hcnt).
    destruct (CompositeFacts.Play_spec (comp s) (world s) env url Hwf)
      as (c1 & w1 & c' & w' & r & Es & Ep & R & X & _ & I1 & _ & _ & X' & _).
    exists c1, w1, c', w', r.
    repeat split; auto using CompositeFacts.exclusive_one_holder.
Qed.

Lemma one_backend_at_a_time_witness :
  exists c' w',
    Play (fst Scenarios.bothGoPlaying) (snd Scenarios.bothGoPlaying) Scenarios.envAac Scenarios.urlB
    = Some (c', w', None)
    /\ critCount [Returned None; PlayLock Scenarios.urlA] <= 1
    /\ goHolds c' = false /\ extHolds c' = true.
Proof.
  destruct (Play (fst Scenarios.bothGoPlaying) (snd Scenarios.bothGoPlaying) Scenarios.envAac
                 Scenarios.urlB) as [[[c' w'] r]|] eqn:Ep; [|vm_compute in Ep; discriminate].
  pose proof (@Play_as_steps _ _ _ _ _ _ _ [] [PlayLock Scenarios.urlA] Ep) as Hs.
  assert (initial (mkSys (fst Scenarios.bothGoPlaying) (snd Scenarios.bothGoPlaying) false
                         ([] ++ [PlayLock Scenarios.urlB; PlayLock Scenarios.urlA])))
    as Hi by (repeat split).
  destruct (@one_backend_at_a_time _ _ Hi Hs) as (A & B & _).
  vm_compute in Ep. inversion Ep; subst c' w' r.
  do 2 eexists. split; [reflexivity|]. split; [exact A|]. split; reflexivity.
Defined.

End ThreadsFacts.

(** ** Which executable the external backend runs *)

Module MpvLookup.

Import Mpv.







(** A bundled ffplay wins over mpv on the search path, and the path is not
    even searched. *)
Example newExternal_bundled_first :
  newExternal (Scenarios.osWith ["/opt/valvefm/ffplay"] ("", "") [("mpv", "/usr/bin/mpv")])
  = ((Some (newPlayer "ffplay" "/opt/valvefm/ffplay"), None),
     [AskExecutable; AskStat "/opt/valvefm/mpv"; AskStat "/opt/valvefm/mpv.exe";
      AskStat "/opt/valvefm/ffplay"]).
Proof. reflexivity. Qed.

Example newExternal_downloaded_second :
  newExternal (Scenarios.osWith [] ("/home/u/.valvefm/ffplay.exe", "ffplay")
                                [("mpv", "/usr/bin/mpv")])
  = ((Some (newPlayer "ffplay" "/home/u/.valvefm/ffplay.exe"), None),
     [AskExecutable; AskStat "/opt/valvefm/mpv"; AskStat "/opt/valvefm/mpv.exe";
      AskStat "/opt/valvefm/ffplay"; AskStat "/opt/valvefm/ffplay.exe"; AskDownloaded]).
Proof. reflexivity. Qed.

Example newExternal_mpv_before_ffplay :
  fst (newExternal (Scenarios.osWith [] ("", "")
                      [("ffplay", "/usr/bin/ffplay"); ("mpv", "/usr/bin/mpv")]))
  = (Some (newPlayer "mpv" "/usr/bin/mpv"), None).
Proof. reflexivity. Qed.

Example newExternal_nothing_found :
  fst (newExternal (Scenarios.osWith [] ("", "") []))
  = (None, Some "mpv or ffplay not found (bundle one or add to PATH)").
Proof. reflexivity. Qed.

End MpvLookup.

(** ** Trimming and case *)

Module GoStringsFacts.

Import GoStrings.

Lemma upper_lower c : upperByte (lowerByte c) = upperByte c.
Proof. destruct c as [[] [] [] [] [] [] [] []]; reflexivity. Qed.

Lemma upper_upper c : upperByte (upperByte c) = upperByte c.
Proof. destruct c as [[] [] [] [] [] [] [] []]; reflexivity. Qed.

Lemma isSpace_lower c : isSpace (lowerByte c) = isSpace c.
Proof. destruct c as [[] [] [] [] [] [] [] []]; reflexivity. Qed.

Lemma isSpace_upper c : isSpace (upperByte c) = isSpace c.
Proof. destruct c as [[] [] [] [] [] [] [] []]; reflexivity. Qed.

Lemma map_map_bytes f g s : map_bytes f (map_bytes g s) = map_bytes (fun c => f (g c)) s.
Proof. induction s as [|c s IH]; simpl; congruence. Qed.

Lemma map_bytes_ext f g s : (forall c, f c = g c) -> map_bytes f s = map_bytes g s.
Proof. intros H. induction s as [|c s IH]; simpl; congruence. Qed.

Section Trim.

Variable f : ascii -> ascii.
Hypothesis keeps_space : forall c, isSpace (f c) = isSpace c.

Lemma TrimLeft_map s : TrimLeft (map_bytes f s) = map_bytes f (TrimLeft s).
Proof.
  induction s as [|c s IH]; simpl; auto.
  rewrite keeps_space. destruct (isSpace c); auto.
Qed.

Lemma TrimRight_map s : TrimRight (map_bytes f s) = map_bytes f (TrimRight s).
Proof.
  induction s as [|c s IH]; simpl; auto.
  rewrite IH, keeps_space. destruct (TrimRight s); simpl; auto.
  destruct (isSpace c); auto.
Qed.

Lemma TrimSpace_map s : TrimSpace (map_bytes f s) = map_bytes f (TrimSpace s).
Proof. unfold TrimSpace. now rewrite TrimLeft_map, TrimRight_map. Qed.

End Trim.

Lemma TrimLeft_idem s : TrimLeft (TrimLeft s) = TrimLeft s.
Proof.
  induction s as [|c s IH]; simpl; auto.
  destruct (isSpace c) eqn:E; auto. simpl. now rewrite E.
Qed.

(** The token of a line does not depend on the case the line is written in. *)
Lemma token_of_lower s : ToUpper (TrimSpace (ToLower s)) = ToUpper (TrimSpace s).
Proof.
  unfold ToUpper, ToLower. rewrite (TrimSpace_map lowerByte isSpace_lower).
  rewrite map_map_bytes. apply map_bytes_ext, upper_lower.
Qed.

Lemma token_of_upper s : ToUpper (TrimSpace (ToUpper s)) = ToUpper (TrimSpace s).
Proof.
  unfold ToUpper. rewrite (TrimSpace_map upperByte isSpace_upper).
  rewrite map_map_bytes. apply map_bytes_ext, upper_upper.
Qed.

End GoStringsFacts.

(** ** The control commands *)

Module UiFacts.

Import Ui.

(** *** Quoting *)




(** *** One send per request *)

Lemma sendIPCReply_spec ch r sel :
  match sendIPCReply ch r sel with
  | (ch', Skipped) => ch = None /\ ch' = None
  | (ch', Delivered t) =>
      t <= replyWindow /\ ch <> None /\ accepted ch' = (accepted ch ++ [r])%list
  | (ch', Dropped t) => t = replyWindow /\ ch <> None /\ ch' = ch
  end.
Proof.
  unfold sendIPCReply. destruct ch as [c|]; [|auto].
  destruct (Nat.ltb (List.length (queue c)) (capacity c)).
  - simpl. repeat split; [lia|discriminate|now rewrite app_assoc].
  - assert (forall t, t <= replyWindow ->
              match (match queue c with
                     | [] => (Some (mkChan (capacity c) [] (received c ++ [r])), Delivered t)
                     | q :: rest =>
                         (Some (mkChan (capacity c) (rest ++ [r]) (received c ++ [q])),
                          Delivered t)
                     end) with
              | (ch', Skipped) => Some c = None /\ ch' = None
              | (ch', Delivered t) =>
                  t <= replyWindow /\ Some c <> None
                  /\ accepted ch' = (accepted (Some c) ++ [r])%list
              | (ch', Dropped t) => t = replyWindow /\ Some c <> None /\ ch' = Some c
              end) as K.
    { intros t Ht. destruct (queue c) as [|q rest] eqn:Eq; simpl; rewrite Eq;
        (repeat split; [exact Ht|discriminate|]).
      - now rewrite !app_nil_r.
      - now rewrite <- !app_assoc. }
    destruct (receiverAfter sel) as [t|].
    + destruct (Nat.ltb t replyWindow) eqn:Elt.
      * apply K. apply Nat.ltb_lt in Elt. lia.
      * destruct (Nat.eqb t replyWindow) eqn:Eeq; simpl.
        -- destruct (tieToSend sel).
           ++ apply K. apply Nat.eqb_eq in Eeq. lia.
           ++ repeat split; discriminate.
        -- repeat split; discriminate.
    + repeat split; discriminate.
Qed.

Lemma ipcPlayPause_quiet m :
  let '(m1, c, r, evs) := ipcPlayPause m in
  replies evs = [] /\ blocked evs = 0 /\ err r <> "unknown command".
Proof.
  unfold ipcPlayPause. destruct (playing m).
  - destruct (hasPlayer m); repeat split; discriminate.
  - destruct (currentStation m) as [st []]; repeat split; discriminate.
Qed.

Lemma ipcSelectAndPlay_quiet delta m :
  let '(m1, c, r, evs) := ipcSelectAndPlay delta m in
  replies evs = [] /\ blocked evs = 0 /\ err r <> "unknown command".
Proof.
  unfold ipcSelectAndPlay. destruct (Z.eqb (len (visibleStations m)) 0).
  - repeat split; discriminate.
  - destruct (moveSelection delta m) as [m1 moved].
    destruct (currentStation m1) as [st []]; repeat split; discriminate.
Qed.

(** Every path through [handleIPC] passes exactly one reply to
    [sendIPCReply], and the channel it leaves is the one that call left. *)
Lemma handleIPC_one_send m msg sel :
  exists r s pre post,
    h_events (handleIPC m msg sel) = (pre ++ EvSend r s :: post)%list
    /\ replies pre = [] /\ replies post = []
    /\ blocked pre = 0 /\ blocked post = 0
    /\ sendIPCReply (reply msg) r sel = (h_chan (handleIPC m msg sel), s).
Proof.
  unfold handleIPC. destruct (parseIPCCommand (cmd msg)) as [c [e|]].
  - destruct (sendIPCReply (reply msg) (mkReply false "" e) sel) as [ch s] eqn:Es.
    exists (mkReply false "" e), s, [], []. simpl. repeat split; auto.
  - destruct (String.eqb c "QUIT").
    + destruct (sendIPCReply (reply msg) (mkReply true "" "") sel) as [ch s] eqn:Es.
      exists (mkReply true "" ""), s, [],
        ((if hasPlayer m then [EvPlayerStop] else [])
           ++ (if hasIpc m then [EvIpcClose] else []))%list.
      simpl. destruct (hasPlayer m), (hasIpc m); simpl; repeat split; auto.
    + pose proof (ipcPlayPause_quiet m) as P1.
      pose proof (ipcSelectAndPlay_quiet 1 m) as P2.
      pose proof (ipcSelectAndPlay_quiet (-1) m) as P3.
      destruct (if String.eqb c "PLAY_PAUSE" then ipcPlayPause m
                else if String.eqb c "NEXT" then ipcSelectAndPlay 1 m
                else if String.eqb c "PREV" then ipcSelectAndPlay (-1) m
                else if String.eqb c "STATUS"
                     then (m, CmdNil, mkReply true (ipcStatus m) "", [])
                else if String.eqb c "PING" then (m, CmdNil, mkReply true "OK" "", [])
                else (m, CmdNil, mkReply false "" "unknown command", []))
        as [[[m1 cmdTea] r] evs] eqn:Ed.
      assert (replies evs = [] /\ blocked evs = 0) as [Q1 Q2].
      { destruct (String.eqb c "PLAY_PAUSE"); [rewrite Ed in P1; tauto|].
        destruct (String.eqb c "NEXT"); [rewrite Ed in P2; tauto|].
        destruct (String.eqb c "PREV"); [rewrite Ed in P3; tauto|].
        destruct (String.eqb c "STATUS"); [inv_pairs; auto|].
        destruct (String.eqb c "PING"); inv_pairs; auto. }
      destruct (sendIPCReply (reply msg) r sel) as [ch s] eqn:Es.
      exists r, s, evs, []. simpl. repeat split; auto.
Qed.

Lemma replies_app a b : replies (a ++ b) = (replies a ++ replies b)%list.
Proof.
  induction a as [|e a IH]; simpl; auto. destruct e; simpl; congruence.
Qed.

Lemma blocked_app a b : blocked (a ++ b) = blocked a + blocked b.
Proof.
  induction a as [|e a IH]; simpl; auto.
  destruct e as [r [|t|t]| |]; simpl; lia.
Qed.

(** C5.  Whatever the command and the session, [handleIPC] passes exactly
    one reply to [sendIPCReply]; that call returns at once on a nil channel,
    and otherwise either hands the reply to the channel within the window
    of 200 milliseconds or drops it when the window ends, leaving the
    channel as it was.  So a request is answered at most once, and the
    dispatcher spends at most 200 milliseconds on delivery, also when
    nobody ever reads the channel. *)
Theorem reply_delivery_is_bounded m msg sel :
  (forall ch r,
      match sendIPCReply ch r sel with
      | (ch', Skipped) => ch = None /\ ch' = None
      | (ch', Delivered t) =>
          t <= replyWindow /\ ch <> None /\ accepted ch' = (accepted ch ++ [r])%list
      | (ch', Dropped t) => t = replyWindow /\ ch <> None /\ ch' = ch
      end)
  /\ (exists r, replies (h_events (handleIPC m msg sel)) = [r]
        /\ (accepted (h_chan (handleIPC m msg sel)) = accepted (reply msg)
            \/ accepted (h_chan (handleIPC m msg sel))
               = (accepted (reply msg) ++ [r])%list))
  /\ blocked (h_events (handleIPC m msg sel)) <= replyWindow
  /\ (forall c, reply msg = Some c -> capacity c <= List.length (queue c) ->
        receiverAfter sel = None ->
        blocked (h_events (handleIPC m msg sel)) = replyWindow
        /\ h_chan (handleIPC m msg sel) = Some c).
Proof.
  destruct (handleIPC_one_send m msg sel)
    as (r & s & pre & post & Ev & R1 & R2 & B1 & B2 & Es).
  pose proof (sendIPCReply_spec (reply msg) r sel) as Hs. rewrite Es in Hs.
  rewrite Ev, blocked_app, replies_app. simpl. rewrite R1, R2, B1. simpl.
  split; [intros ch r'; apply sendIPCReply_spec|]. split; [|split].
  - exists r. split; [reflexivity|].
    destruct s as [|t|t].
    + left. destruct Hs as [-> ->]. reflexivity.
    + right. apply Hs.
    + left. destruct Hs as (_ & _ & ->). reflexivity.
  - destruct s as [|t|t]; simpl in *; rewrite ?B2; lia.
  - intros c Hc Hfull Hnone. rewrite Hc in Es. unfold sendIPCReply in Es.
    apply Nat.ltb_ge in Hfull. rewrite Hfull, Hnone in Es. inv_pairs.
    rewrite B2. split; [lia|reflexivity].
Qed.
(** *** Parsing and dispatch *)

Lemma parse_token line :
  parseIPCCommand line
  = (if String.eqb (GoStrings.ToUpper (GoStrings.TrimSpace line)) ""
     then ("", Some errEmptyCommand)
     else (GoStrings.ToUpper (GoStrings.TrimSpace line), None)).
Proof. reflexivity. Qed.

(** What [handleIPC] does with a token that is none of the six commands. *)
Lemma handleIPC_unknown m msg sel token :
  parseIPCCommand (cmd msg) = (token, None) ->
  ~ In token knownCommands ->
  exists s,
    h_events (handleIPC m msg sel) = [EvSend (mkReply false "" "unknown command") s]
    /\ h_model (handleIPC m msg sel) = m.
Proof.
  intros Hp Hn. unfold handleIPC. rewrite Hp.
  assert (forall k, In k knownCommands -> String.eqb token k = false) as K.
  { intros k Hk. apply String.eqb_neq. intros ->. contradiction. }
  rewrite !K by (simpl; tauto).
  destruct (sendIPCReply (reply msg) (mkReply false "" "unknown command") sel) as [ch s].
  exists s. split; reflexivity.
Qed.

Lemma handleIPC_known m msg sel token :
  parseIPCCommand (cmd msg) = (token, None) ->
  In token knownCommands ->
  exists r, replies (h_events (handleIPC m msg sel)) = [r]
            /\ err r <> "unknown command".
Proof.
  intros Hp Hin. unfold handleIPC. rewrite Hp.
  pose proof (ipcPlayPause_quiet m) as P1.
  pose proof (ipcSelectAndPlay_quiet 1 m) as P2.
  pose proof (ipcSelectAndPlay_quiet (-1) m) as P3.
  simpl in Hin.
  destruct Hin as [<-|[<-|[<-|[<-|[<-|[<-|[]]]]]]]; simpl.
  - destruct (ipcPlayPause m) as [[[m1 c1] r] evs]. destruct P1 as (Q1 & _ & Q3).
    destruct (sendIPCReply (reply msg) r sel) as [ch s]. exists r. simpl.
    rewrite replies_app, Q1. auto.
  - destruct (ipcSelectAndPlay 1 m) as [[[m1 c1] r] evs]. destruct P2 as (Q1 & _ & Q3).
    destruct (sendIPCReply (reply msg) r sel) as [ch s]. exists r. simpl.
    rewrite replies_app, Q1. auto.
  - destruct (ipcSelectAndPlay (-1) m) as [[[m1 c1] r] evs]. destruct P3 as (Q1 & _ & Q3).
    destruct (sendIPCReply (reply msg) r sel) as [ch s]. exists r. simpl.
    rewrite replies_app, Q1. auto.
  - destruct (sendIPCReply (reply msg) (mkReply true "" "") sel) as [ch s].
    eexists. simpl. destruct (hasPlayer m), (hasIpc m); simpl;
      (split; [reflexivity|discriminate]).
  - destruct (sendIPCReply (reply msg) (mkReply true (ipcStatus m) "") sel) as [ch s].
    eexists. simpl. split; [reflexivity|discriminate].
  - destruct (sendIPCReply (reply msg) (mkReply true "OK" "") sel) as [ch s].
    eexists. simpl. split; [reflexivity|discriminate].
Qed.

(** C6.  The token of a line is the line trimmed of surrounding white space
    and upper-cased, so the case of the line does not matter.  A line whose
    token is empty is a parse error, answered with one failure reply.  A
    token that is not empty and is none of PLAY_PAUSE, NEXT, PREV, QUIT,
    STATUS, PING is answered with exactly one reply, the failure
    "unknown command", and changes nothing; the six commands are never
    answered with that message. *)
Theorem unknown_command_is_rejected m msg sel :
  (forall line,
      parseIPCCommand (GoStrings.ToLower line) = parseIPCCommand line
      /\ parseIPCCommand (GoStrings.ToUpper line) = parseIPCCommand line
      /\ (fst (parseIPCCommand line) = GoStrings.ToUpper (GoStrings.TrimSpace line)))
  /\ (GoStrings.ToUpper (GoStrings.TrimSpace (cmd msg)) = "" ->
      exists e s,
        snd (parseIPCCommand (cmd msg)) = Some e
        /\ h_events (handleIPC m msg sel) = [EvSend (mkReply false "" e) s]
        /\ h_model (handleIPC m msg sel) = m)
  /\ (GoStrings.ToUpper (GoStrings.TrimSpace (cmd msg)) <> "" ->
      snd (parseIPCCommand (cmd msg)) = None
      /\ (~ In (GoStrings.ToUpper (GoStrings.TrimSpace (cmd msg))) knownCommands ->
          exists s,
            h_events (handleIPC m msg sel)
            = [EvSend (mkReply false "" "unknown command") s]
            /\ h_model (handleIPC m msg sel) = m)
      /\ (In (GoStrings.ToUpper (GoStrings.TrimSpace (cmd msg))) knownCommands ->
          exists r, replies (h_events (handleIPC m msg sel)) = [r]
                    /\ err r <> "unknown command")).
Proof.
  split; [|split].
  - intros line. rewrite !parse_token.
    rewrite GoStringsFacts.token_of_lower, GoStringsFacts.token_of_upper.
    repeat split. destruct (String.eqb_spec (GoStrings.ToUpper (GoStrings.TrimSpace line)) "");
      simpl; auto.
  - intros He. unfold handleIPC. rewrite parse_token, He. simpl.
    destruct (sendIPCReply (reply msg) (mkReply false "" errEmptyCommand) sel) as [ch s].
    exists errEmptyCommand, s. repeat split.
  - intros Hne.
    assert (parseIPCCommand (cmd msg)
            = (GoStrings.ToUpper (GoStrings.TrimSpace (cmd msg)), None)) as Hp.
    { rewrite parse_token. apply String.eqb_neq in Hne. now rewrite Hne. }
    split; [now rewrite Hp|]. split.
    + intros Hn. eapply handleIPC_unknown; eauto.
    + intros Hin. eapply handleIPC_known; eauto.
Qed.

Example ping_in_lower_case :
  replies (h_events (handleIPC Scenarios.testModel
                       (mkMsg "ping
" (Some Scenarios.freshChan)) Scenarios.noReceiver))
  = [mkReply true "OK" ""].
Proof. reflexivity. Qed.

Example play_is_no_command :
  h_events (handleIPC Scenarios.testModel (mkMsg "  play " (Some Scenarios.freshChan))
              Scenarios.noReceiver)
  = [EvSend (mkReply false "" "unknown command") (Delivered 0)].
Proof. reflexivity. Qed.

Example blank_line_is_an_error :
  replies (h_events (handleIPC Scenarios.testModel (mkMsg "   " None) Scenarios.noReceiver))
  = [mkReply false "" errEmptyCommand].
Proof. reflexivity. Qed.

Example full_channel_is_dropped :
  h_events (handleIPC Scenarios.testModel (mkMsg "PING" (Some Scenarios.fullChan))
              Scenarios.noReceiver)
  = [EvSend (mkReply true "OK" "") (Dropped 200)].
Proof. reflexivity. Qed.

(** *** The status payload *)




Example status_of_the_test_session :
  ipcStatus Scenarios.testModel = statusText false "Rock FM" "US".
Proof. reflexivity. Qed.


End UiFacts.

(** ** The station list: selection and filter *)

Module SelectionFacts.

Import Ui.

Lemma len_nil_iff {A} (l : list A) : len l = 0%Z <-> l = [].
Proof. unfold len. destruct l; simpl; split; intros H; try reflexivity; try discriminate; lia. Qed.

Lemma len_pos {A} (l : list A) : l <> [] -> (0 < len l)%Z.
Proof. unfold len. destruct l; [congruence|simpl; lia]. Qed.

Lemma len_eqb_false {A} (l : list A) : l <> [] -> Z.eqb (len l) 0 = false.
Proof. intros H. apply Z.eqb_neq. pose proof (len_pos H). lia. Qed.

Lemma currentStation_valid m :
  selectionValid m ->
  currentStation m
  = (nth (Z.to_nat (selected m)) (visibleStations m) noStation, true).
Proof.
  unfold selectionValid, currentStation. intros [H0 H1].
  replace (Z.eqb (len (visibleStations m)) 0) with false
    by (symmetry; apply Z.eqb_neq; lia).
  replace (Z.ltb (selected m) 0) with false by (symmetry; apply Z.ltb_ge; lia).
  replace (Z.leb (len (visibleStations m)) (selected m)) with false
    by (symmetry; apply Z.leb_gt; lia).
  reflexivity.
Qed.

(** X1.  On a list that is not empty, [moveSelection] moves the selection by
    [delta] and stops at the two ends: the new index is the old one plus
    [delta] brought into the list, whatever the old index was.  The list is
    untouched, a station is selected afterwards, and the result says
    whether the index changed. *)
Theorem moveSelection_clamps delta m :
  visibleStations m <> [] ->
  fitsInt (selected m + delta) ->
  selected (fst (moveSelection delta m))
  = Z.max 0 (Z.min (len (visibleStations m) - 1) (selected m + delta))
  /\ selectionValid (fst (moveSelection delta m))
  /\ visibleStations (fst (moveSelection delta m)) = visibleStations m
  /\ snd (moveSelection delta m)
     = negb (Z.eqb (selected m) (selected (fst (moveSelection delta m))))
  /\ snd (currentStation (fst (moveSelection delta m))) = true.
Proof.
  intros Hne _. pose proof (len_pos Hne) as Hp.
  assert (selected (fst (moveSelection delta m))
          = Z.max 0 (Z.min (len (visibleStations m) - 1) (selected m + delta))
          /\ visibleStations (fst (moveSelection delta m)) = visibleStations m
          /\ snd (moveSelection delta m)
             = negb (Z.eqb (selected m) (selected (fst (moveSelection delta m)))))
    as (A & B & C).
  { unfold moveSelection. rewrite (len_eqb_false Hne). simpl.
    repeat split.
    destruct (Z.ltb_spec (selected m + delta) 0);
      destruct (Z.leb_spec (len (visibleStations m)) 0);
      destruct (Z.leb_spec (len (visibleStations m)) (selected m + delta)); lia. }
  assert (selectionValid (fst (moveSelection delta m))) as V.
  { unfold selectionValid. rewrite B, A. lia. }
  repeat split; auto; try apply V.
  rewrite (currentStation_valid V). reflexivity.
Qed.

Lemma moveSelection_clamps_witness :
  selected (fst (moveSelection 1 (setSelected 4 Scenarios.testModel))) = 4%Z
  /\ snd (moveSelection 1 (setSelected 4 Scenarios.testModel)) = false.
Proof.
  destruct (@moveSelection_clamps 1 (setSelected 4 Scenarios.testModel))
    as (A & _ & _ & D & _).
  - discriminate.
  - unfold fitsInt. simpl. lia.
  - split; [rewrite A; reflexivity|rewrite D, A; reflexivity].
Defined.

Lemma ensureSelection_visible m : visibleStations (ensureSelection m) = visibleStations m.
Proof.
  unfold ensureSelection.
  destruct (Z.eqb (len (visibleStations m)) 0); [reflexivity|].
  destruct (Z.ltb (selected m) 0); simpl;
    match goal with |- context [if ?b then _ else _] => destruct b end; reflexivity.
Qed.

Lemma ensureSelection_selected m :
  selected (ensureSelection m)
  = if Z.eqb (len (visibleStations m)) 0 then 0%Z
    else Z.max 0 (Z.min (len (visibleStations m) - 1) (selected m)).
Proof.
  unfold ensureSelection.
  destruct (Z.eqb_spec (len (visibleStations m)) 0); [reflexivity|].
  assert (0 <= len (visibleStations m))%Z by (unfold len; lia).
  destruct (Z.ltb_spec (selected m) 0); simpl;
    match goal with |- context [if ?b then _ else _] => destruct b eqn:E end; simpl;
    try (apply Z.leb_le in E); try (apply Z.leb_gt in E); unfold visibleStations in *;
    simpl in *; lia.
Qed.

Lemma setSelected_same m : setSelected (selected m) m = m.
Proof. destruct m; reflexivity. Qed.

Lemma model_eq_selected m1 m2 :
  setSelected 0 m1 = setSelected 0 m2 -> selected m1 = selected m2 -> m1 = m2.
Proof. destruct m1, m2; simpl. intros H E. inversion H; subst. reflexivity. Qed.

Lemma ensureSelection_frame m : setSelected 0 (ensureSelection m) = setSelected 0 m.
Proof.
  unfold ensureSelection.
  destruct (Z.eqb (len (visibleStations m)) 0); [reflexivity|].
  destruct (Z.ltb (selected m) 0); simpl;
    match goal with |- context [if ?b then _ else _] => destruct b end; reflexivity.
Qed.

(** X2.  [ensureSelection] brings the selection into the visible list: on a
    list that is not empty the index is valid afterwards (the nearest end
    when it was outside), on an empty list it is 0.  It changes nothing but
    the index, leaves a valid selection alone, and a second call in a row
    changes nothing. *)
Theorem ensureSelection_repairs m :
  (visibleStations m <> [] ->
   selectionValid (ensureSelection m)
   /\ selected (ensureSelection m)
      = Z.max 0 (Z.min (len (visibleStations m) - 1) (selected m)))
  /\ (visibleStations m = [] -> selected (ensureSelection m) = 0%Z)
  /\ (selectionValid m -> ensureSelection m = m)
  /\ ensureSelection (ensureSelection m) = ensureSelection m
  /\ setSelected 0 (ensureSelection m) = setSelected 0 m.
Proof.
  pose proof (ensureSelection_selected m) as S.
  pose proof (ensureSelection_visible m) as V.
  pose proof (ensureSelection_frame m) as F.
  assert (0 <= len (visibleStations m))%Z as Hl by (unfold len; lia).
  repeat split.
  - rewrite S, (len_eqb_false H). pose proof (len_pos H). lia.
  - rewrite V, S, (len_eqb_false H). pose proof (len_pos H). lia.
  - rewrite S, (len_eqb_false H). reflexivity.
  - intros H. rewrite S. apply len_nil_iff in H. rewrite H. reflexivity.
  - intros [H0 H1]. apply model_eq_selected; [exact F|].
    rewrite S. replace (Z.eqb (len (visibleStations m)) 0) with false
      by (symmetry; apply Z.eqb_neq; lia). lia.
  - apply model_eq_selected; [apply ensureSelection_frame|].
    rewrite (ensureSelection_selected (ensureSelection m)), V, S.
    destruct (Z.eqb_spec (len (visibleStations m)) 0); lia.
  - exact F.
Qed.

(** *** Substrings, case and white space *)



Lemma lower_of_upper c : GoStrings.lowerByte (GoStrings.upperByte c) = GoStrings.lowerByte c.
Proof. destruct c as [[] [] [] [] [] [] [] []]; reflexivity. Qed.

Lemma map_bytes_empty f s : GoStrings.map_bytes f s = "" <-> s = "".
Proof. destruct s; simpl; split; intros H; try reflexivity; discriminate. Qed.

Lemma ToLower_TrimSpace s :
  GoStrings.TrimSpace (GoStrings.ToLower s) = GoStrings.ToLower (GoStrings.TrimSpace s).
Proof. apply (GoStringsFacts.TrimSpace_map _ GoStringsFacts.isSpace_lower). Qed.

Lemma ToLower_ToUpper s : GoStrings.ToLower (GoStrings.ToUpper s) = GoStrings.ToLower s.
Proof.
  unfold GoStrings.ToLower, GoStrings.ToUpper. rewrite GoStringsFacts.map_map_bytes.
  apply GoStringsFacts.map_bytes_ext, lower_of_upper.
Qed.

Lemma TrimRight_idem s :
  GoStrings.TrimRight (GoStrings.TrimRight s) = GoStrings.TrimRight s.
Proof.
  induction s as [|c r IH]; simpl; auto.
  destruct (GoStrings.TrimRight r) as [|x r'] eqn:E.
  - destruct (GoStrings.isSpace c) eqn:Ec; simpl; auto. now rewrite Ec.
  - simpl in *. rewrite IH. reflexivity.
Qed.

Lemma TrimLeft_headed s : GoStrings.headed (GoStrings.TrimLeft s).
Proof.
  induction s as [|c r IH]; simpl; auto.
  destruct (GoStrings.isSpace c) eqn:E; simpl; auto.
Qed.

Lemma TrimLeft_of_headed s : GoStrings.headed s -> GoStrings.TrimLeft s = s.
Proof. destruct s; simpl; auto. intros ->. reflexivity. Qed.

Lemma TrimRight_headed s : GoStrings.headed s -> GoStrings.headed (GoStrings.TrimRight s).
Proof.
  destruct s as [|c r]; simpl; auto. intros H.
  destruct (GoStrings.TrimRight r); simpl; auto. now rewrite H.
Qed.

Lemma TrimSpace_idem s :
  GoStrings.TrimSpace (GoStrings.TrimSpace s) = GoStrings.TrimSpace s.
Proof.
  unfold GoStrings.TrimSpace.
  rewrite (TrimLeft_of_headed _ (TrimRight_headed _ (TrimLeft_headed s))).
  apply TrimRight_idem.
Qed.

(** *** The filter *)


(** The text [applyFilter] filters on. *)
Lemma visible_after_filter m :
  visibleStations (applyFilter m)
  = if String.eqb (GoStrings.TrimSpace (GoStrings.ToLower (search m))) ""
    then stations m
    else filterStations (GoStrings.TrimSpace (GoStrings.ToLower (search m))) (stations m).
Proof.
  unfold applyFilter, visibleStations.
  destruct (String.eqb_spec (GoStrings.TrimSpace (GoStrings.ToLower (search m))) "")
    as [E|E].
  - simpl. rewrite ToLower_TrimSpace in E. apply map_bytes_empty in E. now rewrite E.
  - assert (GoStrings.TrimSpace (search m) <> "") as E'.
    { intros H. apply E. rewrite ToLower_TrimSpace, H. reflexivity. }
    apply String.eqb_neq in E'.
    destruct (Z.eqb (len (filterStations _ (stations m))) 0); simpl; now rewrite E'.
Qed.


(** X4.  The filter takes the search text without its case and without the
    white space around it: the text in upper case, and the text already
    trimmed, show the same stations. *)
Theorem applyFilter_ignores_case_and_margin v m :
  visibleStations (applyFilter (setSearch (GoStrings.ToUpper v) m))
  = visibleStations (applyFilter (setSearch v m))
  /\ visibleStations (applyFilter (setSearch (GoStrings.ToLower v) m))
     = visibleStations (applyFilter (setSearch v m))
  /\ visibleStations (applyFilter (setSearch (GoStrings.TrimSpace v) m))
     = visibleStations (applyFilter (setSearch v m)).
Proof.
  rewrite !visible_after_filter. simpl.
  rewrite ToLower_ToUpper.
  assert (GoStrings.ToLower (GoStrings.ToLower v) = GoStrings.ToLower v) as LL.
  { unfold GoStrings.ToLower. rewrite GoStringsFacts.map_map_bytes.
    apply GoStringsFacts.map_bytes_ext.
    intros c. destruct c as [[] [] [] [] [] [] [] []]; reflexivity. }
  rewrite LL.
  assert (GoStrings.TrimSpace (GoStrings.ToLower (GoStrings.TrimSpace v))
          = GoStrings.TrimSpace (GoStrings.ToLower v)) as TT.
  { rewrite <- ToLower_TrimSpace. apply TrimSpace_idem. }
  rewrite TT. repeat split.
Qed.

(** X5.  After every change of the search text the selection is usable: when
    stations are shown the index points at one of them, and when none is
    shown the index is 0 and no station is current.  Nothing but the
    search text, the filtered list and the index is changed. *)
Theorem search_keeps_the_selection_valid v m :
  (visibleStations (searchChanged v m) <> [] ->
   selectionValid (searchChanged v m)
   /\ snd (currentStation (searchChanged v m)) = true)
  /\ (visibleStations (searchChanged v m) = [] ->
      selected (searchChanged v m) = 0%Z
      /\ snd (currentStation (searchChanged v m)) = false)
  /\ stations (searchChanged v m) = stations m
  /\ playing (searchChanged v m) = playing m
  /\ country (searchChanged v m) = country m
  /\ search (searchChanged v m) = v.
Proof.
  unfold searchChanged.
  set (m1 := applyFilter (setSearch v m)).
  pose proof (ensureSelection_selected m1) as S.
  pose proof (ensureSelection_visible m1) as V.
  pose proof (ensureSelection_frame m1) as F.
  assert (0 <= len (visibleStations m1))%Z as Hl by (unfold len; lia).
  assert (stations m1 = stations m /\ playing m1 = playing m /\ country m1 = country m
          /\ search m1 = v) as (A1 & A2 & A3 & A4).
  { unfold m1, applyFilter. simpl.
    destruct (String.eqb (GoStrings.TrimSpace (GoStrings.ToLower v)) ""); simpl; auto.
    destruct (Z.eqb (len (filterStations _ (stations m))) 0); simpl; auto. }
  assert (stations (ensureSelection m1) = stations m1
          /\ playing (ensureSelection m1) = playing m1
          /\ country (ensureSelection m1) = country m1
          /\ search (ensureSelection m1) = search m1) as (B1 & B2 & B3 & B4).
  { assert (forall x y, setSelected 0 x = setSelected 0 y ->
              stations x = stations y /\ playing x = playing y
              /\ country x = country y /\ search x = search y) as K.
    { intros x y H. clear - H. destruct x, y. simpl in H. inversion H; subst. simpl. auto. }
    apply K, F. }
  split; [|split; [|repeat split; congruence]].
  - rewrite V. intros Hn.
    assert (selectionValid (ensureSelection m1)) as SV.
    { unfold selectionValid. rewrite V, S, (len_eqb_false Hn).
      pose proof (len_pos Hn). lia. }
    split; [exact SV|]. rewrite (currentStation_valid SV). reflexivity.
  - rewrite V. intros Hn. split.
    + rewrite S. apply len_nil_iff in Hn. now rewrite Hn.
    + unfold currentStation. rewrite V. apply len_nil_iff in Hn. now rewrite Hn.
Qed.

End SelectionFacts.

(** ** What the control commands do to the session *)

Module DispatchFacts.

Import Ui.

(** [moveSelection] on a list that is not empty. *)
Lemma moveSelection_move delta m :
  visibleStations m <> [] ->
  fst (moveSelection delta m)
  = setSelected (Z.max 0 (Z.min (len (visibleStations m) - 1) (selected m + delta))) m.
Proof.
  intros Hne. pose proof (SelectionFacts.len_pos Hne) as Hp.
  unfold moveSelection. rewrite (SelectionFacts.len_eqb_false Hne). simpl. f_equal.
  destruct (Z.ltb_spec (selected m + delta) 0);
    destruct (Z.leb_spec (len (visibleStations m)) 0);
    destruct (Z.leb_spec (len (visibleStations m)) (selected m + delta)); lia.
Qed.

Lemma ipcSelectAndPlay_move delta m :
  visibleStations m <> [] ->
  ipcSelectAndPlay delta m
  = (setSelected (Z.max 0 (Z.min (len (visibleStations m) - 1) (selected m + delta))) m,
     CmdBatch CmdDialTick
       (CmdPlayStation
          (nth (Z.to_nat (Z.max 0 (Z.min (len (visibleStations m) - 1)
                                         (selected m + delta))))
               (visibleStations m) noStation)),
     mkReply true "QUEUED" "", []).
Proof.
  intros Hne. pose proof (SelectionFacts.len_pos Hne) as Hp.
  pose proof (@moveSelection_move delta m Hne) as Hm.
  unfold ipcSelectAndPlay. rewrite (SelectionFacts.len_eqb_false Hne).
  destruct (moveSelection delta m) as [m1 moved]. simpl in Hm. subst m1.
  set (i := Z.max 0 (Z.min (len (visibleStations m) - 1) (selected m + delta))).
  assert (selectionValid (setSelected i m)) as V.
  { unfold selectionValid. simpl. change (visibleStations (setSelected i m))
      with (visibleStations m). unfold i. lia. }
  rewrite (SelectionFacts.currentStation_valid V). reflexivity.
Qed.

(** X6.  NEXT and PREV move the selection by one within the visible list and
    stop at its ends (no wrap-around); the reply is QUEUED and the station
    now selected is the one whose stream is resolved, so at an end the same
    station is queued again.  With no station visible nothing changes and
    the reply is the failure "no stations available".  The failure
    "no station selected" is never the answer to these two commands. *)
Theorem next_and_prev_stop_at_the_ends m msg sel delta :
  (GoStrings.ToUpper (GoStrings.TrimSpace (cmd msg)) = "NEXT" /\ delta = 1%Z)
  \/ (GoStrings.ToUpper (GoStrings.TrimSpace (cmd msg)) = "PREV" /\ delta = (-1)%Z) ->
  fitsInt (selected m + delta) ->
  (visibleStations m = [] ->
   h_model (handleIPC m msg sel) = m
   /\ replies (h_events (handleIPC m msg sel))
      = [mkReply false "" "no stations available"])
  /\ (visibleStations m <> [] ->
      h_model (handleIPC m msg sel)
      = setSelected (Z.max 0 (Z.min (len (visibleStations m) - 1) (selected m + delta))) m
      /\ replies (h_events (handleIPC m msg sel)) = [mkReply true "QUEUED" ""]
      /\ h_cmd (handleIPC m msg sel)
         = CmdBatch
             (CmdBatch CmdDialTick
                (CmdPlayStation
                   (nth (Z.to_nat (Z.max 0 (Z.min (len (visibleStations m) - 1)
                                                  (selected m + delta))))
                        (visibleStations m) noStation)))
             (listenIPCCmd m)).
Proof.
  intros Ht _.
  assert (handleIPC m msg sel
          = let '(m1, cmdTea, r, evs) := ipcSelectAndPlay delta m in
            let '(ch, s) := sendIPCReply (reply msg) r sel in
            mkHandled m1 (CmdBatch cmdTea (listenIPCCmd m1)) (evs ++ [EvSend r s]) ch)
    as E.
  { unfold handleIPC. rewrite UiFacts.parse_token.
    destruct Ht as [[-> ->]|[-> ->]]; reflexivity. }
  rewrite E. clear E. split.
  - intros Hn. unfold ipcSelectAndPlay. apply SelectionFacts.len_nil_iff in Hn.
    rewrite Hn. simpl.
    destruct (sendIPCReply (reply msg) _ sel) as [ch s]. split; reflexivity.
  - intros Hne. rewrite (@ipcSelectAndPlay_move delta m Hne).
    destruct (sendIPCReply (reply msg) _ sel) as [ch s]. repeat split.
Qed.

Lemma next_and_prev_stop_at_the_ends_witness :
  h_model (handleIPC (setSelected 4 Scenarios.testModel)
             (mkMsg "next" (Some Scenarios.freshChan)) Scenarios.noReceiver)
  = setSelected 4 Scenarios.testModel
  /\ replies (h_events (handleIPC (setSelected 4 Scenarios.testModel)
                          (mkMsg "next" (Some Scenarios.freshChan)) Scenarios.noReceiver))
     = [mkReply true "QUEUED" ""].
Proof.
  destruct (@next_and_prev_stop_at_the_ends (setSelected 4 Scenarios.testModel)
              (mkMsg "next" (Some Scenarios.freshChan)) Scenarios.noReceiver 1)
    as [_ H].
  - left. split; reflexivity.
  - unfold fitsInt. simpl. lia.
  - destruct H as (A & B & _); [discriminate|]. split; [exact A|exact B].
Defined.

(** The model a handler leaves is the given one, or the one of
    [ipcPlayPause], or the one of [ipcSelectAndPlay]. *)
Lemma handleIPC_model m msg sel :
  h_model (handleIPC m msg sel) = m
  \/ (h_model (handleIPC m msg sel) = fst (fst (fst (ipcPlayPause m)))
      /\ h_events (handleIPC m msg sel)
         = (snd (ipcPlayPause m)
              ++ [EvSend (snd (fst (ipcPlayPause m)))
                         (snd (sendIPCReply (reply msg) (snd (fst (ipcPlayPause m))) sel))])%list)
  \/ (exists delta,
        h_model (handleIPC m msg sel) = fst (fst (fst (ipcSelectAndPlay delta m)))).
Proof.
  unfold handleIPC. destruct (parseIPCCommand (cmd msg)) as [c [e|]].
  - destruct (sendIPCReply (reply msg) _ sel). left. reflexivity.
  - destruct (String.eqb c "QUIT").
    + destruct (sendIPCReply (reply msg) _ sel). left. reflexivity.
    + destruct (String.eqb c "PLAY_PAUSE").
      * right. left. destruct (ipcPlayPause m) as [[[m1 c1] r] evs]. simpl.
        destruct (sendIPCReply (reply msg) r sel). split; reflexivity.
      * destruct (String.eqb c "NEXT").
        { right. right. exists 1%Z. destruct (ipcSelectAndPlay 1 m) as [[[m1 c1] r] evs].
          destruct (sendIPCReply (reply msg) r sel). reflexivity. }
        destruct (String.eqb c "PREV").
        { right. right. exists (-1)%Z.
          destruct (ipcSelectAndPlay (-1) m) as [[[m1 c1] r] evs].
          destruct (sendIPCReply (reply msg) r sel). reflexivity. }
        left. destruct (String.eqb c "STATUS"); [|destruct (String.eqb c "PING")];
          destruct (sendIPCReply (reply msg) _ sel); reflexivity.
Qed.

Lemma same_but_selected_playing m1 m2 :
  setPlaying false (setSelected 0 m1) = setPlaying false (setSelected 0 m2) <->
  stations m1 = stations m2 /\ filtered m1 = filtered m2 /\ country m1 = country m2
  /\ search m1 = search m2 /\ hasPlayer m1 = hasPlayer m2 /\ hasIpc m1 = hasIpc m2.
Proof.
  destruct m1, m2; simpl. split.
  - intros H. inversion H. repeat split; reflexivity.
  - intros (-> & -> & -> & -> & -> & ->). reflexivity.
Qed.

Lemma ipcPlayPause_frame m :
  setPlaying false (setSelected 0 (fst (fst (fst (ipcPlayPause m)))))
  = setPlaying false (setSelected 0 m)
  /\ (playing (fst (fst (fst (ipcPlayPause m)))) = true -> playing m = true)
  /\ selected (fst (fst (fst (ipcPlayPause m)))) = selected m
  /\ (In EvPlayerStop (snd (ipcPlayPause m)) -> hasPlayer m = true /\ playing m = true).
Proof.
  unfold ipcPlayPause. destruct (playing m) eqn:Ep.
  - simpl. split; [reflexivity|]. split; [reflexivity|]. split; [reflexivity|].
    destruct (hasPlayer m); simpl; intros H; [split; reflexivity|contradiction].
  - destruct (currentStation m) as [st []]; simpl;
      (split; [reflexivity|]); (split; [congruence|]); (split; [reflexivity|]);
      intros H; contradiction.
Qed.

Lemma ipcSelectAndPlay_frame delta m :
  setPlaying false (setSelected 0 (fst (fst (fst (ipcSelectAndPlay delta m)))))
  = setPlaying false (setSelected 0 m)
  /\ playing (fst (fst (fst (ipcSelectAndPlay delta m)))) = playing m.
Proof.
  unfold ipcSelectAndPlay, moveSelection.
  destruct (Z.eqb (len (visibleStations m)) 0); [split; reflexivity|].
  match goal with |- context [currentStation ?x] => destruct (currentStation x) as [st []] end;
    split; reflexivity.
Qed.

(** X7.  A control command changes nothing of the session but the selection
    and the playing flag: the stations, the filtered list, the country and
    the search text stay.  No command turns the playing flag on (only the
    result of the stream lookup does); the selection moves only for a
    command that selects; and the player is stopped only when there is one. *)
Theorem commands_touch_selection_and_flag_only m msg sel :
  stations (h_model (handleIPC m msg sel)) = stations m
  /\ filtered (h_model (handleIPC m msg sel)) = filtered m
  /\ country (h_model (handleIPC m msg sel)) = country m
  /\ search (h_model (handleIPC m msg sel)) = search m
  /\ (playing (h_model (handleIPC m msg sel)) = true -> playing m = true)
  /\ (selected (h_model (handleIPC m msg sel)) <> selected m ->
      GoStrings.ToUpper (GoStrings.TrimSpace (cmd msg)) = "NEXT"
      \/ GoStrings.ToUpper (GoStrings.TrimSpace (cmd msg)) = "PREV")
  /\ (In EvPlayerStop (h_events (handleIPC m msg sel)) -> hasPlayer m = true).
Proof.
  assert (setPlaying false (setSelected 0 (h_model (handleIPC m msg sel)))
          = setPlaying false (setSelected 0 m)
          /\ (playing (h_model (handleIPC m msg sel)) = true -> playing m = true)) as [F P].
  { destruct (handleIPC_model m msg sel) as [->|[[-> _]|[delta ->]]].
    - split; auto.
    - destruct (ipcPlayPause_frame m) as (A & B & _). split; auto.
    - destruct (ipcSelectAndPlay_frame delta m) as (A & B). split; [exact A|congruence]. }
  apply same_but_selected_playing in F. destruct F as (F1 & F2 & F3 & F4 & F5 & F6).
  repeat split; auto.
  - (* the selection *)
    intros Hs. unfold handleIPC in Hs. rewrite UiFacts.parse_token in Hs.
    destruct (String.eqb (GoStrings.ToUpper (GoStrings.TrimSpace (cmd msg))) "").
    { destruct (sendIPCReply (reply msg) _ sel). simpl in Hs. congruence. }
    destruct (String.eqb _ "QUIT").
    { destruct (sendIPCReply (reply msg) _ sel). simpl in Hs. congruence. }
    destruct (String.eqb _ "PLAY_PAUSE").
    { destruct (ipcPlayPause_frame m) as (_ & _ & C & _).
      destruct (ipcPlayPause m) as [[[m1 c1] r] evs].
      destruct (sendIPCReply (reply msg) r sel). simpl in *. congruence. }
    destruct (String.eqb_spec (GoStrings.ToUpper (GoStrings.TrimSpace (cmd msg))) "NEXT");
      [left; assumption|].
    destruct (String.eqb_spec (GoStrings.ToUpper (GoStrings.TrimSpace (cmd msg))) "PREV");
      [right; assumption|].
    destruct (String.eqb _ "STATUS"); [|destruct (String.eqb _ "PING")];
      destruct (sendIPCReply (reply msg) _ sel); simpl in Hs; congruence.
  - (* the player *)
    intros Hin. unfold handleIPC in Hin.
    destruct (parseIPCCommand (cmd msg)) as [c [e|]].
    { destruct (sendIPCReply (reply msg) _ sel). simpl in Hin.
      destruct Hin as [H|[]]. discriminate. }
    destruct (String.eqb c "QUIT").
    { destruct (sendIPCReply (reply msg) _ sel).
      destruct (hasPlayer m), (hasIpc m); try reflexivity; simpl in Hin;
        intuition discriminate. }
    pose proof (ipcPlayPause_frame m) as (_ & _ & _ & D).
    destruct (String.eqb c "PLAY_PAUSE").
    { destruct (ipcPlayPause m) as [[[m1 c1] r] evs].
      destruct (sendIPCReply (reply msg) r sel). simpl in *.
      apply in_app_or in Hin. destruct Hin as [Hin|[H|[]]]; [apply D; exact Hin|discriminate]. }
    assert (forall delta, ~ In EvPlayerStop (snd (ipcSelectAndPlay delta m))) as K.
    { intros delta. unfold ipcSelectAndPlay.
      destruct (Z.eqb (len (visibleStations m)) 0); [simpl; tauto|].
      destruct (moveSelection delta m) as [m1 mv].
      destruct (currentStation m1) as [st []]; simpl; tauto. }
    destruct (String.eqb c "NEXT").
    { specialize (K 1%Z). destruct (ipcSelectAndPlay 1 m) as [[[m1 c1] r] evs].
      destruct (sendIPCReply (reply msg) r sel). simpl in *.
      apply in_app_or in Hin. destruct Hin as [Hin|[H|[]]]; [contradiction|discriminate]. }
    destruct (String.eqb c "PREV").
    { specialize (K (-1)%Z). destruct (ipcSelectAndPlay (-1) m) as [[[m1 c1] r] evs].
      destruct (sendIPCReply (reply msg) r sel). simpl in *.
      apply in_app_or in Hin. destruct Hin as [Hin|[H|[]]]; [contradiction|discriminate]. }
    destruct (String.eqb c "STATUS"); [|destruct (String.eqb c "PING")];
      destruct (sendIPCReply (reply msg) _ sel); simpl in Hin;
      destruct Hin as [H|[]]; discriminate.
Qed.

End DispatchFacts.

(** ** The backends over sequences of calls *)

Module RunFacts.

Import Runs.

Lemma openBodies_app l1 l2 acc :
  openBodies (l1 ++ l2) acc = openBodies l2 (openBodies l1 acc).
Proof.
  revert acc. induction l1 as [|e l1 IH]; intros acc; simpl; auto.
  destruct e; auto.
Qed.

Lemma unkilled_app l1 l2 acc : unkilled (l1 ++ l2) acc = unkilled l2 (unkilled l1 acc).
Proof.
  revert acc. induction l1 as [|e l1 IH]; intros acc; simpl; auto.
  destruct e; auto.
Qed.

Ltac open_log :=
  unfold emit, alloc in *; simpl in *;
  rewrite ?openBodies_app, ?unkilled_app in *; simpl in *.

Lemma go_cleanupLocked_inv g w :
  openBodies (effects w) []
  = match GoAudio.resp g with Some b => [b] | None => [] end ->
  openBodies (effects (snd (GoAudio.cleanupLocked g w))) [] = [].
Proof.
  intros H. unfold GoAudio.cleanupLocked.
  destruct (GoAudio.streamer g), (GoAudio.resp g); open_log; rewrite H; simpl;
    rewrite ?Nat.eqb_refl; reflexivity.
Qed.

Lemma go_stopLocked_inv g w :
  openBodies (effects w) []
  = match GoAudio.resp g with Some b => [b] | None => [] end ->
  openBodies (effects (snd (GoAudio.stopLocked g w))) [] = []
  /\ GoAudio.resp (fst (GoAudio.stopLocked g w)) = None
  /\ GoAudio.streamer (fst (GoAudio.stopLocked g w)) = None
  /\ GoAudio.playing (fst (GoAudio.stopLocked g w)) = false.
Proof.
  intros H. unfold GoAudio.stopLocked. destruct (GoAudio.ctrl g).
  - repeat split. apply go_cleanupLocked_inv. open_log. exact H.
  - repeat split. apply go_cleanupLocked_inv. exact H.
Qed.

Lemma goStep_inv st op : goInv st -> goInv (goStep st op).
Proof.
  destruct st as [g w]. intros (I1 & I2 & I3 & I4). simpl in *.
  destruct op as [env url| |h]; unfold goStep; simpl.
  - (* Play *)
    unfold GoAudio.Play. destruct (String.eqb url "").
    { unfold goInv. simpl. (split; [|split; [|split]]); assumption. }
    destruct (go_stopLocked_inv g w I1) as (S1 & S2 & S3 & S4).
    destruct (GoAudio.stopLocked g w) as [g1 w1]. simpl in *.
    unfold GoAudio.initSpeaker. simpl.
    unfold goInv.
    destruct (GoAudio.initialized g1), (GoAudio.speakerInitErr env),
      (GoAudio.newRequestErr env), (GoAudio.httpDo env) as [e|n],
      (GoAudio.mp3DecodeErr env);
      simpl; try destruct (Nat.eqb n GoAudio.http_StatusOK); simpl;
      open_log; rewrite ?S1, ?S2, ?S3, ?S4; simpl; rewrite ?Nat.eqb_refl; simpl;
      repeat split; auto; try discriminate.
  - (* Stop *)
    unfold GoAudio.Stop.
    destruct (go_stopLocked_inv g w I1) as (S1 & S2 & S3 & S4).
    destruct (GoAudio.stopLocked g w) as [g1 w1]. simpl in *.
    unfold goInv. simpl. rewrite S1, S2, S3, S4. repeat split; auto. discriminate.
  - (* the end of the stream *)
    unfold GoAudio.streamEnded. destruct (GoAudio.ctrl g) as [c|] eqn:Ec.
    + destruct (Nat.eqb c h).
      * pose proof (go_cleanupLocked_inv
                      (GoAudio.mkGoPlayer (GoAudio.streamer g) (GoAudio.ctrl g)
                         (GoAudio.resp g) (GoAudio.lastURL g) false
                         (GoAudio.initialized g)) w I1) as K.
        unfold goInv. simpl in *. rewrite K. repeat split; auto. discriminate.
      * unfold goInv. simpl. rewrite Ec. (split; [|split; [|split]]); assumption.
    + unfold goInv. simpl. rewrite Ec. (split; [|split; [|split]]); assumption.
Qed.

Lemma goRun_inv ops st : goInv st -> goInv (goRun ops st).
Proof.
  unfold goRun. revert st. induction ops as [|op ops IH]; intros st H; simpl; auto.
  apply IH, goStep_inv, H.
Qed.

(** X8.  Whatever calls of [Play] and [Stop] and end-of-stream callbacks a
    fresh [GoPlayer] goes through, with whatever answers from the network:
    no HTTP response body is left open behind its back.  The body that is
    open is the one the player holds, there is one exactly when the player
    is playing, and none when it is not. *)
Theorem go_player_leaks_no_body ops :
  openBodies (effects (snd (goRun ops (GoAudio.NewGoPlayer, world0)))) []
  = match GoAudio.resp (fst (goRun ops (GoAudio.NewGoPlayer, world0))) with
    | Some b => [b]
    | None => []
    end
  /\ (GoAudio.IsPlaying (fst (goRun ops (GoAudio.NewGoPlayer, world0))) = false ->
      openBodies (effects (snd (goRun ops (GoAudio.NewGoPlayer, world0)))) [] = [])
  /\ (GoAudio.IsPlaying (fst (goRun ops (GoAudio.NewGoPlayer, world0))) = true ->
      exists b,
        openBodies (effects (snd (goRun ops (GoAudio.NewGoPlayer, world0)))) [] = [b]).
Proof.
  assert (goInv (GoAudio.NewGoPlayer, world0)) as H0
      by (unfold goInv; simpl; repeat split; auto; discriminate).
  destruct (goRun_inv ops H0) as (I1 & I2 & _).
  unfold GoAudio.IsPlaying. rewrite I2, I1.
  destruct (GoAudio.resp (fst (goRun ops (GoAudio.NewGoPlayer, world0)))) as [b|];
    repeat split; auto; try discriminate. intros _. exists b. reflexivity.
Qed.

Example go_run_of_three_streams :
  let st := goRun [GoPlay (Composite.goEnv Scenarios.envGood) Scenarios.urlA;
                   GoPlay (Composite.goEnv Scenarios.envBad) Scenarios.urlB;
                   GoPlay (Composite.goEnv Scenarios.envGood) Scenarios.urlA;
                   GoStreamEnded 1; GoStreamEnded 6]
                  (GoAudio.NewGoPlayer, world0) in
  GoAudio.IsPlaying (fst st) = false
  /\ effects (snd st)
     = [SpeakerInit; HttpGet Scenarios.urlA 0; SpeakerPlay 2;
        CtrlPause 2; StreamerClose 1; BodyClose 0;
        HttpGet Scenarios.urlB 3; BodyClose 3;
        HttpGet Scenarios.urlA 4; SpeakerPlay 6;
        StreamerClose 5; BodyClose 4].
Proof. split; reflexivity. Qed.

(** The handles a successful [Play] makes are the next three. *)
Lemma go_Play_handles g w env url g' w' :
  GoAudio.Play g w env url = (g', w', None) ->
  GoAudio.resp g' = Some (fresh w)
  /\ GoAudio.streamer g' = Some (S (fresh w))
  /\ GoAudio.ctrl g' = Some (S (S (fresh w))).
Proof.
  unfold GoAudio.Play. destruct (String.eqb url ""); [discriminate|].
  assert (fresh (snd (GoAudio.stopLocked g w)) = fresh w) as F.
  { unfold GoAudio.stopLocked, GoAudio.cleanupLocked.
    destruct (GoAudio.ctrl g), (GoAudio.streamer g), (GoAudio.resp g); reflexivity. }
  destruct (GoAudio.stopLocked g w) as [g1 w1]. simpl in F.
  unfold GoAudio.initSpeaker. simpl.
  destruct (GoAudio.initialized g1), (GoAudio.speakerInitErr env),
    (GoAudio.newRequestErr env), (GoAudio.httpDo env) as [e|n],
    (GoAudio.mp3DecodeErr env);
    simpl; try discriminate;
    destruct (Nat.eqb n GoAudio.http_StatusOK); simpl; try discriminate;
    intros H; inversion H; subst g' w'; simpl; rewrite F; repeat split.
Qed.

Lemma streamEnded_other h c g w :
  GoAudio.ctrl g = Some c -> c <> h -> GoAudio.streamEnded h g w = (g, w).
Proof.
  intros Ec Hn. unfold GoAudio.streamEnded. rewrite Ec.
  apply Nat.eqb_neq in Hn. now rewrite Hn.
Qed.

(** X9.  A [Play] that succeeded is not undone by an old callback: the
    control node it made is newer than every handle that existed before the
    call, so the end-of-stream callback of any earlier node leaves the
    player as it is.  The callback of the new node ends the playback and
    closes its decoder and its body. *)
Theorem stale_stream_end_is_dropped g w env url g' w' :
  GoAudio.Play g w env url = (g', w', None) ->
  (forall h, h < fresh w -> GoAudio.streamEnded h g' w' = (g', w'))
  /\ exists st c body,
       GoAudio.streamer g' = Some st /\ GoAudio.ctrl g' = Some c
       /\ GoAudio.resp g' = Some body
       /\ fresh w <= c
       /\ GoAudio.IsPlaying (fst (GoAudio.streamEnded c g' w')) = false
       /\ effects (snd (GoAudio.streamEnded c g' w'))
          = (effects w' ++ [StreamerClose st; BodyClose body])%list.
Proof.
  intros H. destruct (go_Play_handles _ _ _ _ H) as (Hr & Hs & Hc). split.
  - intros h Hh. apply (streamEnded_other _ w' Hc). lia.
  - exists (S (fresh w)), (S (S (fresh w))), (fresh w).
    unfold GoAudio.streamEnded, GoAudio.cleanupLocked, GoAudio.IsPlaying.
    rewrite Hc, Nat.eqb_refl. cbn [GoAudio.streamer GoAudio.resp fst snd GoAudio.playing].
    rewrite Hs, Hr. repeat split; auto; try lia.
    unfold emit. cbn [effects]. rewrite <- app_assoc. reflexivity.
Qed.

Lemma stale_stream_end_is_dropped_witness :
  GoAudio.streamEnded 2 (fst (fst Scenarios.goSecondPlay)) (snd (fst Scenarios.goSecondPlay))
  = fst Scenarios.goSecondPlay.
Proof.
  destruct (@stale_stream_end_is_dropped (fst Scenarios.goFirstPlay)
              (snd Scenarios.goFirstPlay) (Composite.goEnv Scenarios.envGood) Scenarios.urlB
              (fst (fst Scenarios.goSecondPlay)) (snd (fst Scenarios.goSecondPlay)) eq_refl)
    as [H _].
  rewrite (H 2); [reflexivity|]. vm_compute. lia.
Defined.

(** *** The external player *)

Lemma ext_stopLocked_log p w :
  Mpv.stopLocked p w
  = match Mpv.cmd p with
    | None => (p, w, None)
    | Some c =>
        (Mpv.mkPlayer None (Mpv.backend p) (Mpv.path p) (Mpv.lastURL p),
         match Mpv.Process c with Some pid => emit (ProcKill pid) w | None => w end,
         None)
    end.
Proof. unfold Mpv.stopLocked. destruct (Mpv.cmd p); reflexivity. Qed.

Lemma ext_stopLocked_fresh p w : fresh (snd (fst (Mpv.stopLocked p w))) = fresh w.
Proof.
  rewrite ext_stopLocked_log. destruct (Mpv.cmd p) as [c|]; [|reflexivity].
  destruct (Mpv.Process c); reflexivity.
Qed.

(** The command and the process a successful [Play] makes are the next two
    handles. *)
Lemma ext_Play_handles p w env url p' w' :
  Mpv.Play p w env url = (p', w', None) ->
  Mpv.cmd p' = Some (Mpv.mkCmd (fresh w) (Some (S (fresh w))))
  /\ exists args,
       Mpv.commandArgs (Mpv.backend p) url = Some args
       /\ effects w'
          = (effects (snd (fst (Mpv.stopLocked p w)))
               ++ [ProcStart (Mpv.path p) args (S (fresh w))])%list.
Proof.
  unfold Mpv.Play. destruct (String.eqb url ""); [discriminate|].
  pose proof (ext_stopLocked_fresh p w) as F.
  destruct (Mpv.stopLocked p w) as [[p1 w1] e1] eqn:Es.
  apply MpvFacts.stopLocked_spec in Es. destruct Es as (_ & _ & _ & Hb & Hp).
  simpl in *. rewrite Hb.
  destruct (Mpv.commandArgs (Mpv.backend p) url) as [args|]; [|discriminate].
  destruct (Mpv.cmdStartErr env); [discriminate|].
  intros H. inversion H; subst p' w'. simpl. rewrite F, Hp. split; [reflexivity|].
  exists args. split; reflexivity.
Qed.

Lemma extStep_inv st op : extInv st -> extInv (extStep st op).
Proof.
  destruct st as [p w]. unfold extInv. simpl. intros I.
  destruct op as [env url| |h]; simpl.
  - destruct (Mpv.Play p w env url) as [[p' w'] [e|]] eqn:Ep; simpl.
    + apply MpvFacts.ext_Play_err in Ep.
      destruct Ep as [(_ & -> & ->)|(_ & Hh & _)]; [exact I|].
      unfold Mpv.holds, Mpv.IsPlaying in Hh. destruct (Mpv.cmd p'); [discriminate|exact Logic.I].
    + destruct (ext_Play_handles _ _ _ _ Ep) as (Hc & args & _ & He).
      rewrite Hc. exists (S (fresh w)). split; [reflexivity|].
      rewrite He, unkilled_app. simpl. apply in_or_app. right. left. reflexivity.
  - unfold Mpv.Stop. rewrite ext_stopLocked_log.
    destruct (Mpv.cmd p) eqn:Ec; simpl; [exact Logic.I|]. rewrite Ec. exact Logic.I.
  - unfold Mpv.waitReturned. destruct (Mpv.cmd p) as [c|] eqn:Ec; simpl.
    + destruct (Nat.eqb (Mpv.cmdId c) h); simpl; [exact Logic.I|]. rewrite Ec. exact I.
    + rewrite Ec. exact Logic.I.
Qed.

Lemma extStep_setup st op :
  Mpv.backend (fst (extStep st op)) = Mpv.backend (fst st)
  /\ Mpv.path (fst (extStep st op)) = Mpv.path (fst st).
Proof.
  destruct st as [p w]. destruct op as [env url| |h]; simpl.
  - unfold Mpv.Play. destruct (String.eqb url ""); [split; reflexivity|].
    destruct (Mpv.stopLocked p w) as [[p1 w1] e1] eqn:Es.
    apply MpvFacts.stopLocked_spec in Es. destruct Es as (_ & _ & _ & Hb & Hp).
    simpl. destruct (Mpv.commandArgs (Mpv.backend p1) url); simpl; [|split; assumption].
    destruct (Mpv.cmdStartErr env); simpl; split; assumption.
  - unfold Mpv.Stop. rewrite ext_stopLocked_log. destruct (Mpv.cmd p); split; reflexivity.
  - unfold Mpv.waitReturned. destruct (Mpv.cmd p) as [c|]; [|split; reflexivity].
    destruct (Nat.eqb (Mpv.cmdId c) h); split; reflexivity.
Qed.

Lemma extRun_inv ops st :
  extInv st ->
  extInv (extRun ops st)
  /\ Mpv.backend (fst (extRun ops st)) = Mpv.backend (fst st)
  /\ Mpv.path (fst (extRun ops st)) = Mpv.path (fst st).
Proof.
  unfold extRun. revert st. induction ops as [|op ops IH]; intros st H; simpl; auto.
  destruct (IH (extStep st op) (@extStep_inv st op H)) as (A & B & C).
  destruct (extStep_setup st op) as (D & E). repeat split; congruence.
Qed.

(** X10.  Whatever calls of [Play] and [Stop] and process exits a new
    external player goes through: while it reports playing, it tracks a
    process that it started and did not kill, and [Stop] kills exactly that
    process (one kill, nothing else) and reports no error; while it does not
    report playing, [Stop] does nothing.  The executable it runs never
    changes. *)
Theorem player_kills_what_it_tracks ops b path :
  match Mpv.cmd (fst (extRun ops (Mpv.newPlayer b path, world0))) with
  | Some c =>
      exists pid,
        Mpv.Process c = Some pid
        /\ In pid (unkilled (effects (snd (extRun ops (Mpv.newPlayer b path, world0)))) [])
        /\ exists p' w',
             Mpv.Stop (fst (extRun ops (Mpv.newPlayer b path, world0)))
                      (snd (extRun ops (Mpv.newPlayer b path, world0)))
             = (p', w', None)
             /\ Mpv.IsPlaying p' = false
             /\ effects w'
                = (effects (snd (extRun ops (Mpv.newPlayer b path, world0)))
                     ++ [ProcKill pid])%list
             /\ ~ In pid (unkilled (effects w') [])
  | None =>
      Mpv.Stop (fst (extRun ops (Mpv.newPlayer b path, world0)))
               (snd (extRun ops (Mpv.newPlayer b path, world0)))
      = (fst (extRun ops (Mpv.newPlayer b path, world0)),
         snd (extRun ops (Mpv.newPlayer b path, world0)), None)
  end
  /\ Mpv.backend (fst (extRun ops (Mpv.newPlayer b path, world0))) = b
  /\ Mpv.path (fst (extRun ops (Mpv.newPlayer b path, world0))) = path.
Proof.
  assert (extInv (Mpv.newPlayer b path, world0)) as H0 by exact Logic.I.
  destruct (@extRun_inv ops _ H0) as (I & B & C).
  split; [|split; assumption].
  unfold extInv in I. unfold Mpv.Stop. rewrite ext_stopLocked_log.
  destruct (Mpv.cmd (fst (extRun ops (Mpv.newPlayer b path, world0)))) as [c|];
    [|reflexivity].
  destruct I as (pid & Hp & Hin). exists pid. repeat split; auto.
  rewrite Hp. do 2 eexists. split; [reflexivity|]. repeat split.
  unfold emit. simpl. rewrite unkilled_app. simpl.
  intros Hf. apply filter_In in Hf. destruct Hf as [_ Hf].
  rewrite Nat.eqb_refl in Hf. discriminate.
Qed.

(** X11.  The goroutine that waited for an earlier command cannot clear a
    newer one: after a [Play] that started a process, the watcher of any
    command made before the call leaves the player as it is, and only the
    watcher of the new command clears it. *)
Theorem stale_watcher_is_dropped p w env url p' w' :
  Mpv.Play p w env url = (p', w', None) ->
  (forall h, h < fresh w -> Mpv.waitReturned h p' = p')
  /\ Mpv.IsPlaying p' = true
  /\ Mpv.IsPlaying (Mpv.waitReturned (fresh w) p') = false.
Proof.
  intros H. destruct (ext_Play_handles _ _ _ _ H) as (Hc & _).
  unfold Mpv.waitReturned, Mpv.IsPlaying. rewrite Hc. simpl. repeat split.
  - intros h Hh. replace (Nat.eqb (fresh w) h) with false
      by (symmetry; apply Nat.eqb_neq; lia). reflexivity.
  - rewrite Nat.eqb_refl. reflexivity.
Qed.

Lemma stale_watcher_is_dropped_witness :
  Mpv.waitReturned 0 (fst (fst Scenarios.extSecondPlay)) = fst (fst Scenarios.extSecondPlay)
  /\ Mpv.IsPlaying (fst (fst Scenarios.extSecondPlay)) = true.
Proof.
  destruct (@stale_watcher_is_dropped (fst Scenarios.extFirstPlay)
              (snd Scenarios.extFirstPlay) (Mpv.mkExtEnv None) Scenarios.urlB
              (fst (fst Scenarios.extSecondPlay)) (snd (fst Scenarios.extSecondPlay)) eq_refl)
    as (A & B & _).
  split; [apply A; vm_compute; lia|exact B].
Defined.

(** X12.  A player whose backend is neither mpv nor ffplay never starts
    anything: [Play] of a url that is not empty fails with
    "no audio backend available", but only after it stopped what was
    running and recorded the url. *)
Theorem unknown_backend_stops_then_fails p w env url :
  url <> "" -> Mpv.backend p <> "mpv" -> Mpv.backend p <> "ffplay" ->
  exists w',
    Mpv.Play p w env url
    = (Mpv.mkPlayer None (Mpv.backend p) (Mpv.path p) url, w',
       Some "no audio backend available")
    /\ releases w w'
    /\ (Mpv.cmd p = None -> w' = w).
Proof.
  intros Hu Hm Hf. unfold Mpv.Play.
  apply String.eqb_neq in Hu. rewrite Hu.
  destruct (Mpv.stopLocked p w) as [[p1 w1] e1] eqn:Es.
  pose proof (BackendEffects.ext_stopLocked_releases _ _ Es) as R.
  pose proof Es as Es'. rewrite ext_stopLocked_log in Es'.
  apply MpvFacts.stopLocked_spec in Es. destruct Es as (_ & Hc & _ & Hb & Hp).
  simpl. unfold Mpv.commandArgs. rewrite Hb.
  apply String.eqb_neq in Hm, Hf. rewrite Hm, Hf.
  exists w1. rewrite Hc, Hp. repeat split; auto.
  intros Hn. rewrite Hn in Es'. inversion Es'. reflexivity.
Qed.

Lemma unknown_backend_stops_then_fails_witness :
  snd (Mpv.Play (Mpv.newPlayer "vlc" "/usr/bin/vlc") world0 (Mpv.mkExtEnv None)
                Scenarios.urlA)
  = Some "no audio backend available".
Proof.
  destruct (@unknown_backend_stops_then_fails (Mpv.newPlayer "vlc" "/usr/bin/vlc") world0
              (Mpv.mkExtEnv None) Scenarios.urlA) as (w' & E & _);
    try discriminate.
  rewrite E. reflexivity.
Defined.

End RunFacts.

(** ** The composite at its edges *)

Module CompositeEdgeFacts.

Import Composite.

(** X13.  [Play] of the empty url starts nothing and still has effects: it
    records the empty url, stops what was playing (so [IsPlaying] is false
    afterwards and the world only sees releases), and fails with a text
    that depends on which backends exist; the active backend stays. *)
Theorem Play_of_the_empty_url c w env :
  wf c = true ->
  exists c' w',
    Play c w env ""
    = Some (c', w',
            Some match gp c, ext c with
                 | Some _, Some _ =>
                     "go-audio: stream url is required, external: stream url is required"
                 | Some _, None => errUnsupported "stream url is required"
                 | None, Some _ => "stream url is required"
                 | None, None => errNoBackend
                 end)
    /\ LastURL c' = "" /\ IsPlaying c' = Some false
    /\ active c' = active c /\ releases w w'.
Proof.
  intros Hwf.
  destruct (CompositeFacts.playStop_spec c w "" Hwf)
    as (c1 & w1 & Es & A1 & A2 & A3 & A4 & _ & A6 & (S1 & S2) & _).
  unfold Play. rewrite Es. unfold playGo, playExt, LastURL.
  unfold IsPlaying, backendIsPlaying in *. rewrite <- A1.
  destruct (gp c1) as [g1|] eqn:G1, (gp c) as [g|]; try discriminate S1;
    destruct (ext c1) as [p1|] eqn:P1, (ext c) as [p|]; try discriminate S2;
    simpl; rewrite ?G1, ?P1; simpl; do 2 eexists; (split; [reflexivity|]); simpl;
    rewrite ?G1, ?P1; repeat split; auto.
Qed.

Lemma Play_of_the_empty_url_witness :
  exists c' w',
    Play (fst Scenarios.goPlaying) (snd Scenarios.goPlaying) Scenarios.envGood ""
    = Some (c', w', Some (errUnsupported "stream url is required"))
    /\ IsPlaying c' = Some false.
Proof.
  destruct (@Play_of_the_empty_url (fst Scenarios.goPlaying) (snd Scenarios.goPlaying)
              Scenarios.envGood eq_refl) as (c' & w' & E & _ & B & _).
  exists c', w'. split; [exact E|exact B].
Defined.

(** X14.  [New] cannot return its error: the pure Go player is always
    there, so the result is a composite with that player, the external one
    when a lookup found it, nothing active, no url, and on which [Stop]
    does nothing in any world. *)
Theorem New_cannot_fail os w :
  exists c,
    New os = (Some c, None)
    /\ gp c = GoAudio.probeGoAudio /\ gp c <> None
    /\ ext c = fst (fst (Mpv.newExternal os))
    /\ active c = None /\ LastURL c = "" /\ IsPlaying c = Some false
    /\ Stop c w = Some (c, w, None).
Proof.
  destruct (CompositeFacts.New_spec os) as (c & E & A1 & A2 & A3 & A4 & _ & _ & _ & A5).
  exists c. unfold Stop. rewrite A3, A1. repeat split; auto. discriminate.
Qed.

End CompositeEdgeFacts.

(** ** The radio-browser client *)

Module RadioFacts.

Import Radio.





(** A page is accepted exactly when its limit is between 1 and 500
    and its offset is not negative; an accepted page is passed on as it is,
    a refused one comes back as (0, 0) with an error. *)
Lemma sanitizePage_accepts limit offset :
  (snd (sanitizePage limit offset) = None
   <-> (1 <= limit <= 500)%Z /\ (0 <= offset)%Z)
  /\ (snd (sanitizePage limit offset) = None ->
      fst (sanitizePage limit offset) = (limit, offset))
  /\ (snd (sanitizePage limit offset) <> None ->
      fst (sanitizePage limit offset) = (0%Z, 0%Z)).
Proof.
  unfold sanitizePage, maxPageSize.
  destruct (Z.leb_spec limit 0); simpl;
    [repeat split; try discriminate; try lia; intros; lia|].
  destruct (Z.ltb_spec 500 limit); simpl;
    [repeat split; try discriminate; try lia; intros; lia|].
  destruct (Z.ltb_spec offset 0); simpl;
    [repeat split; try discriminate; try lia; intros; lia|].
  repeat split; try lia. intros Hc. contradiction.
Qed.






End RadioFacts.

(** ** The helpers of the view *)

Module ViewFacts.

Import View.




(** X18.  The window of a list never leaves the list, shows as many lines
    as there is room for (all of the list when it fits), and contains the
    selected line. *)
Theorem listWindow_shows_the_selection length selected max :
  (0 <= selected < length)%Z -> (0 < max)%Z -> fitsInt (selected + max) ->
  let '(start, end_) := listWindow length selected max in
  (0 <= start <= selected)%Z /\ (selected < end_ <= length)%Z
  /\ (end_ - start = Z.min length max)%Z.
Proof.
  intros Hs Hm _. unfold listWindow.
  pose proof (Z.quot_pos max 2 ltac:(lia) ltac:(lia)) as Q1.
  pose proof (Z.quot_lt max 2 ltac:(lia) ltac:(lia)) as Q2.
  destruct (Z.leb_spec length max); [lia|].
  destruct (Z.ltb_spec (selected - Z.quot max 2) 0);
    [destruct (Z.ltb_spec length (0 + max))
    |destruct (Z.ltb_spec length (selected - Z.quot max 2 + max))];
    try destruct (Z.ltb_spec (length - max) 0);
    try destruct (Z.ltb_spec (selected - Z.quot max 2) 0);
    try destruct (Z.ltb_spec 0 0); lia.
Qed.

Lemma listWindow_shows_the_selection_witness :
  listWindow 100 99 10 = (90%Z, 100%Z).
Proof.
  pose proof (@listWindow_shows_the_selection 100 99 10) as H.
  destruct (listWindow 100 99 10) as [s e].
  assert (fitsInt (99 + 10)) as F by (unfold fitsInt; lia).
  specialize (H ltac:(lia) ltac:(lia) F). f_equal; lia.
Defined.


(** X20.  The inner width of a panel is never wider than the panel; it is
    the width less 6 from width 10 on, and at least 2 for every panel of
    width 2 or more. *)
Theorem innerWidthForPanel_bounds width :
  fitsInt (width - 6) ->
  (innerWidthForPanel width <= width)%Z
  /\ ((10 <= width)%Z -> innerWidthForPanel width = (width - 6)%Z)
  /\ ((2 <= width)%Z -> (2 <= innerWidthForPanel width)%Z).
Proof.
  intros _. unfold innerWidthForPanel, max.
  destruct (Z.ltb_spec (width - 6) 4);
    [destruct (Z.ltb_spec 2 (width - 2));
     [destruct (Z.ltb_spec width (width - 2))|destruct (Z.ltb_spec width 2)]
    |destruct (Z.ltb_spec width (width - 6))]; lia.
Qed.

Lemma innerWidthForPanel_bounds_witness : innerWidthForPanel 80 = 74%Z.
Proof.
  assert (fitsInt (80 - 6)) as F by (unfold fitsInt; lia).
  destruct (@innerWidthForPanel_bounds 80 F) as (_ & H & _). apply H. lia.
Defined.

End ViewFacts.

(** ** Favorites *)

Module FavoritesFacts.

Import Favorites.

Lemma lookup_delete_same key its : lookup key (delete key its) = None.
Proof.
  induction its as [|[k v] rest IH]; simpl; [reflexivity|].
  destruct (String.eqb k key) eqn:E; [exact IH|]. simpl. rewrite E. exact IH.
Qed.

Lemma lookup_delete_other key u its :
  u <> key -> lookup u (delete key its) = lookup u its.
Proof.
  intros Hne. induction its as [|[k v] rest IH]; simpl; [reflexivity|].
  destruct (String.eqb_spec k key) as [->|Hk].
  - rewrite IH. destruct (String.eqb_spec key u) as [E|_]; [congruence|reflexivity].
  - simpl. rewrite IH. reflexivity.
Qed.

Lemma delete_absent key its : lookup key its = None -> delete key its = its.
Proof.
  induction its as [|[k v] rest IH]; simpl; [reflexivity|].
  destruct (String.eqb k key); [discriminate|]. intros H. now rewrite IH.
Qed.

Lemma distinctKeys_delete key its :
  distinctKeys its = true -> distinctKeys (delete key its) = true.
Proof.
  induction its as [|[k v] rest IH]; simpl; [reflexivity|].
  destruct (lookup k rest) eqn:El; [discriminate|]. intros Hd.
  destruct (String.eqb_spec k key) as [->|Hk]; [auto|].
  simpl. rewrite lookup_delete_other by exact Hk. rewrite El. auto.
Qed.

Lemma length_delete key v its :
  distinctKeys its = true -> lookup key its = Some v ->
  S (List.length (delete key its)) = List.length its.
Proof.
  induction its as [|[k x] rest IH]; simpl; [discriminate|].
  destruct (lookup k rest) eqn:El; [discriminate|]. intros Hd.
  destruct (String.eqb_spec k key) as [->|Hk].
  - intros _. now rewrite (delete_absent _ _ El).
  - intros Hl. simpl. now rewrite IH.
Qed.

(** X21.  [Toggle] of a station with a uuid flips whether that uuid is a
    favorite and reports the new state; no other uuid is touched, an added
    favorite carries the station's four fields, and the change is made in
    memory whatever the file system answers: only the returned error
    depends on it.  Toggling twice gives back the membership there was. *)
Theorem Toggle_flips_membership f env st :
  sUUID st <> "" ->
  let '(f1, added, err) := Toggle f env st in
  added = negb (IsFavorite f (sUUID st))
  /\ IsFavorite f1 (sUUID st) = added
  /\ (forall u, u <> sUUID st -> lookup u (items f1) = lookup u (items f))
  /\ (added = true ->
      lookup (sUUID st) (items f1)
      = Some (mkFavorite (sUUID st) (sName st) (sCountry st) (sTags st)))
  /\ path f1 = path f
  /\ err = match mkdirAllErr env with Some e => Some e | None => writeFileErr env end
  /\ (forall env', fst (fst (Toggle f env' st)) = f1)
  /\ (forall env' u,
        IsFavorite (fst (fst (Toggle f1 env' st))) u = IsFavorite f u).
Proof.
  intros Hu. unfold Toggle, IsFavorite.
  apply String.eqb_neq in Hu. rewrite Hu.
  destruct (lookup (sUUID st) (items f)) as [v|] eqn:El; simpl.
  - rewrite lookup_delete_same.
    split; [reflexivity|]. split; [reflexivity|]. split.
    { intros u Hne. now apply lookup_delete_other. }
    split; [discriminate|]. do 3 (split; [reflexivity|]).
    intros env' u. unfold insert. simpl.
    destruct (String.eqb_spec (sUUID st) u) as [<-|Hne].
    + now rewrite El.
    + rewrite !lookup_delete_other by congruence. reflexivity.
  - unfold insert. simpl. rewrite String.eqb_refl.
    split; [reflexivity|]. split; [reflexivity|]. split.
    { intros u Hne. destruct (String.eqb_spec (sUUID st) u) as [E|_]; [congruence|].
      now apply lookup_delete_other. }
    do 4 (split; [reflexivity|]).
    intros env' u. simpl.
    destruct (String.eqb_spec (sUUID st) u) as [<-|Hne].
    + now rewrite lookup_delete_same, El.
    + rewrite !lookup_delete_other by congruence. reflexivity.
Qed.

Lemma Toggle_flips_membership_witness :
  IsFavorite (fst (fst (Toggle (mkFavorites "/tmp/favorites.json" [])
                               (mkSaveEnv None (Some "disk full"))
                               (mkStation "u-1" "Jazz FM" "GB" "jazz")))) "u-1" = true.
Proof.
  pose proof (@Toggle_flips_membership (mkFavorites "/tmp/favorites.json" [])
                (mkSaveEnv None (Some "disk full"))
                (mkStation "u-1" "Jazz FM" "GB" "jazz")) as H.
  destruct (Toggle _ _ _) as [[f1 added] err]. simpl.
  destruct H as (A & B & _); [discriminate|]. simpl in A, B. rewrite B, A. reflexivity.
Defined.

(** A station without a uuid is refused: nothing changes and nothing
    is saved, whatever the file system would answer. *)
Lemma Toggle_needs_a_uuid f env st :
  sUUID st = "" -> Toggle f env st = (f, false, Some "station uuid is required").
Proof. intros H. unfold Toggle. rewrite H. reflexivity. Qed.

(** X22.  On a map (keys distinct) [Toggle] changes [Count] by exactly one,
    up when it adds and down when it removes, and the keys stay distinct. *)
Theorem Toggle_counts_one f env st :
  distinctKeys (items f) = true -> sUUID st <> "" ->
  let '(f1, added, _) := Toggle f env st in
  Count f1 = (if added then Count f + 1 else Count f - 1)%Z
  /\ distinctKeys (items f1) = true.
Proof.
  intros Hd Hu. unfold Toggle, Count.
  apply String.eqb_neq in Hu. rewrite Hu.
  destruct (lookup (sUUID st) (items f)) as [v|] eqn:El; simpl.
  - rewrite <- (length_delete _ _ Hd El). split; [lia|now apply distinctKeys_delete].
  - rewrite (delete_absent _ _ El), El. split; [lia|exact Hd].
Qed.

Lemma Toggle_counts_one_witness :
  Count (fst (fst (Toggle (mkFavorites "/tmp/favorites.json" []) (mkSaveEnv None None)
                          (mkStation "u-1" "Jazz FM" "GB" "jazz")))) = 1%Z.
Proof.
  pose proof (@Toggle_counts_one (mkFavorites "/tmp/favorites.json" []) (mkSaveEnv None None)
                (mkStation "u-1" "Jazz FM" "GB" "jazz") eq_refl) as H.
  destruct (Toggle _ _ _) as [[f1 added] err] eqn:E.
  destruct H as [A _]; [discriminate|].
  vm_compute in E. inversion E; subst. exact A.
Defined.

End FavoritesFacts.
